(** * rpmdeplint: dependency analysis of RPM packages against repositories

    A shallow embedding of [rpmdeplint/__init__.py]: the [DependencySet]
    aggregator and the analyses of [DependencyAnalyzer].  The hawkey sack,
    the libsolv goal solver, the rpm header reader and the repository
    download are collaborators of the program; they appear here as the
    fields of one record, [External], over which the analyses are
    parameterised. *)

From Stdlib Require Import Ascii.
From stdpp Require Import gmap strings list fin_maps.

Set Warnings "-clear-no-such-hyp".


(** ** Packages *)

(** The attributes of a [hawkey.Package] that the program reads. *)
Record Package := mkPackage {
  name : string;
  evr : string;
  arch : string;
  reponame : string;
  location : string;
  requires : list string;
  files : list string
}.

Global Instance Package_eq_dec : EqDecision Package.
Proof. solve_decision. Defined.

Definition Package_to_tuple (p : Package) :
    string * string * string * string * string * list string * list string :=
  (name p, evr p, arch p, reponame p, location p, requires p, files p).

Definition Package_of_tuple
    (t : string * string * string * string * string * list string * list string) :
    Package :=
  let '(n, e, a, r, l, rq, fs) := t in mkPackage n e a r l rq fs.

Global Instance Package_countable : Countable Package.
Proof.
  apply (inj_countable' Package_to_tuple Package_of_tuple).
  by intros [].
Defined.

(** [str(pkg)]: the NEVRA of the package. *)
Definition package_str (p : Package) : string :=
  name p +:+ "-" +:+ evr p +:+ "." +:+ arch p.

(** ** DependencySet *)

(** The value type of [_packagedeps]:
    [dict(dependencies=[], problems=[])]. *)
Record PackageDeps := mkPackageDeps {
  dependencies : list string;
  problems : list string
}.

Definition default_packagedeps : PackageDeps := mkPackageDeps [] [].

Record DependencySet := mkDependencySet {
  _packagedeps : gmap string PackageDeps;
  _packages_with_problems : gset string;
  _overall_problems : gset string;
  _repodeps : gmap string (gset string);
  _repo_packages : gmap string (gset string);
  _package_repo : gmap string string
}.

(** [DependencySet.__init__] *)
Definition DependencySet_init : DependencySet :=
  mkDependencySet ∅ ∅ ∅ ∅ ∅ ∅.

(** Reading a key of a [defaultdict]: the stored value, or the default
    (which the read also stores, see [defaultdict_touch]). *)
Definition defaultdict_get {V} (dflt : V) (m : gmap string V) (k : string) : V :=
  default dflt (m !! k).

Definition defaultdict_touch {V} (dflt : V) (m : gmap string V) (k : string) :
    gmap string V :=
  <[k := defaultdict_get dflt m k]> m.

(** [DependencySet.add_package] *)
Definition add_package (ds : DependencySet) (pkg : Package) (repo : string)
    (deps : list Package) (probs : list string) : DependencySet :=
  let nevra := package_str pkg in
  let entry := defaultdict_get default_packagedeps (_packagedeps ds) nevra in
  let entry1 :=
    mkPackageDeps (dependencies entry ++ map package_str deps) (problems entry) in
  let packagedeps1 := <[nevra := entry1]> (_packagedeps ds) in
  let repodeps1 :=
    <[repo := defaultdict_get ∅ (_repodeps ds) repo
              ∪ list_to_set (map reponame deps)]> (_repodeps ds) in
  let repo_packages1 :=
    <[repo := defaultdict_get ∅ (_repo_packages ds) repo ∪ {[nevra]}]>
      (_repo_packages ds) in
  let package_repo1 := <[nevra := repo]> (_package_repo ds) in
  if bool_decide (length probs ≠ 0) then
    let entry2 := mkPackageDeps (dependencies entry1) (problems entry1 ++ probs) in
    mkDependencySet (<[nevra := entry2]> packagedeps1)
                    ({[nevra]} ∪ _packages_with_problems ds)
                    (_overall_problems ds ∪ list_to_set probs)
                    repodeps1 repo_packages1 package_repo1
  else
    mkDependencySet packagedeps1
                    (_packages_with_problems ds)
                    (_overall_problems ds)
                    repodeps1 repo_packages1 package_repo1.

(** The properties of [DependencySet].  [packages], [overall_problems]
    and [packages_with_problems] list the keys of a [dict] or the
    elements of a [set]; Python fixes no order for them, and the lists
    here stand for the lists of the code up to their order: what is said
    of them below is about their elements. *)
Definition packages_of (ds : DependencySet) : list string :=
  elements (dom (_packagedeps ds)).

Definition overall_problems (ds : DependencySet) : list string :=
  elements (_overall_problems ds).

Definition packages_with_problems (ds : DependencySet) : list string :=
  elements (_packages_with_problems ds).

Definition package_dependencies (ds : DependencySet) : gmap string PackageDeps :=
  _packagedeps ds.

Definition repository_dependencies (ds : DependencySet) : gmap string (list string) :=
  elements <$> _repodeps ds.

(** [repository_for_package]: a plain [dict] lookup, [None] standing for
    the [KeyError] of an absent key. *)
Definition repository_for_package (ds : DependencySet) (pkg : string) : option string :=
  _package_repo ds !! pkg.

(** [dependencies_for_repository] and [dependencies_for_package] index a
    [defaultdict], which stores the default under a key it does not hold:
    they return the value read and the aggregator after the read. *)
Definition dependencies_for_repository (ds : DependencySet) (repo : string) :
    list string * DependencySet :=
  (elements (defaultdict_get ∅ (_repodeps ds) repo),
   mkDependencySet (_packagedeps ds) (_packages_with_problems ds)
     (_overall_problems ds) (defaultdict_touch ∅ (_repodeps ds) repo)
     (_repo_packages ds) (_package_repo ds)).

Definition dependencies_for_package (ds : DependencySet) (nevra : string) :
    list string * DependencySet :=
  (dependencies (defaultdict_get default_packagedeps (_packagedeps ds) nevra),
   mkDependencySet (defaultdict_touch default_packagedeps (_packagedeps ds) nevra)
     (_packages_with_problems ds) (_overall_problems ds) (_repodeps ds)
     (_repo_packages ds) (_package_repo ds)).

(** ** Strings as Python uses them *)

(** [needle in haystack] on Python strings. *)
Fixpoint str_contains (needle haystack : string) : bool :=
  String.prefix needle haystack ||
  match haystack with
  | EmptyString => false
  | String _ rest => str_contains needle rest
  end.

(** No blank occurs in the string. *)
Fixpoint no_space (s : string) : bool :=
  match s with
  | EmptyString => true
  | String c rest => negb (bool_decide (c = " "%char)) && no_space rest
  end.

(** ** The collaborators *)

(** What [hawkey.Goal.run] leaves in the goal. *)
Record GoalResult := mkGoalResult {
  run_ok : bool;
  list_installs : list Package;
  list_upgrades : list Package;
  list_erasures : list Package;
  goal_problems : list string
}.

(** An entry of [rpm.files(hdr)]. *)
Record FileEntry := mkFileEntry {
  digest : string;
  color : nat
}.

Record External := mkExternal {
  (** hawkey: [evr__gt], the comparison of epoch-version-release strings *)
  evr_gt : string → string → bool;
  (** hawkey: the package is selected by [filter(provides=req)] *)
  sack_provides : Package → string → bool;
  (** hawkey: the first package is selected by [filter(obsoletes=[pkg])] *)
  sack_obsoletes : Package → Package → bool;
  (** hawkey: a goal with the given installs, after [run()] *)
  goal_run : list Package → GoalResult;
  (** rpm: the file entries of the header read from a path *)
  rpm_files : string → gmap string FileEntry;
  (** rpm: [left.matches(right)] on two file entries *)
  file_matches : FileEntry → FileEntry → bool;
  (** the local path that [Repo.download_package] answers with *)
  repo_download_package : Package → string
}.

(** The result dictionary of [try_to_install]. *)
Record InstallResults := mkInstallResults {
  installs : list Package;
  upgrades : list Package;
  erasures : list Package;
  res_problems : list string
}.

(** ** DependencyAnalyzer *)

Section Analyzer.
Context (E : External).
(** [self._sack]: every package loaded, from the repositories and from
    the command line; [self.packages]: the packages under test. *)
Context (sack : list Package) (packages : list Package).

(** *** hawkey queries

    A query is the list of the packages it selects.  A call of
    [filter] narrows the selection of the query it is called on; the
    key [latest_per_arch] is evaluated after the other keys of the same
    call. *)
Definition filter_latest_per_arch (q : list Package) : list Package :=
  filter (λ p, Forall (λ p', ¬ (name p' = name p ∧ arch p' = arch p ∧
                                evr_gt E (evr p') (evr p) = true)) q) q.

Definition filter_reponame_neq (r : string) (q : list Package) : list Package :=
  filter (λ p, reponame p ≠ r) q.

Definition filter_provides (req : string) (q : list Package) : list Package :=
  filter (λ p, sack_provides E p req = true) q.

Definition filter_obsoletes (pkg : Package) (q : list Package) : list Package :=
  filter (λ p, sack_obsoletes E p pkg = true) q.

Definition filter_file (filename : string) (q : list Package) : list Package :=
  filter (λ p, filename ∈ files p) q.

Definition filter_name_arch_evr_gt (n a e : string) (q : list Package) :
    list Package :=
  filter (λ p, name p = n ∧ arch p = a ∧ evr_gt E (evr p) e = true) q.

(** [list_latest_packages] *)
Definition list_latest_packages : list Package := filter_latest_per_arch sack.

(** [download_package] *)
Definition download_package (package : Package) : string :=
  if bool_decide (package ∈ packages) then location package
  else repo_download_package E package.

(** [try_to_install] *)
Definition try_to_install (pkgs : list Package) : bool * InstallResults :=
  let g := goal_run E pkgs in
  let results := mkInstallResults [] [] [] [] in
  let install_succeeded := run_ok g in
  if install_succeeded then
    (install_succeeded,
     mkInstallResults (list_installs g) (list_upgrades g) (list_erasures g)
                      (res_problems results))
  else
    (install_succeeded,
     mkInstallResults (installs results) (upgrades results) (erasures results)
                      (goal_problems g)).

(** The body of the loop of [try_to_install_all]. *)
Definition install_step (ds : DependencySet) (pkg : Package) : DependencySet :=
  let '(ok, results) := try_to_install [pkg] in
  add_package ds pkg (reponame pkg) (installs results) (res_problems results).

(** [try_to_install_all] *)
Definition try_to_install_all : bool * DependencySet :=
  let ds := foldl install_step DependencySet_init packages in
  let ok := bool_decide (length (overall_problems ds) = 0) in
  (ok, ds).

(** *** Repository closure *)

(** The loops that collect [obsoleted] and [obsoleted_from_repos]. *)
Definition collect_obsoleted (q : list Package) : gset Package :=
  foldl (λ obsoleted pkg,
           if bool_decide (filter_obsoletes pkg q ≠ []) then obsoleted ∪ {[pkg]}
           else obsoleted) ∅ q.

Definition closure_problem_msg (req : string) (pkg : Package) : string :=
  "nothing provides " +:+ req +:+ " needed by " +:+ package_str pkg.

Definition closure_warning (problem_msg : string) : string :=
  "Ignoring pre-existing repoclosure problem: " +:+ problem_msg.

(** The state of [find_repoclosure_problems]: the list [problems], and
    the records written with [logger.warn]. *)
Definition ClosureState : Type := list string * list string.

Definition check_requirement (available available_from_repos : list Package)
    (obsoleted obsoleted_from_repos : gset Package)
    (pkg : Package) (st : ClosureState) (req : string) : ClosureState :=
  if String.prefix "rpmlib(" req then st
  else
    let providers :=
      filter (λ p, p ∉ obsoleted) (filter_provides req available) in
    if bool_decide (providers = []) then
      let problem_msg := closure_problem_msg req pkg in
      let repo_providers :=
        filter (λ p, p ∉ obsoleted_from_repos)
               (filter_provides req available_from_repos) in
      if bool_decide (repo_providers = []) then
        (st.1, st.2 ++ [closure_warning problem_msg])
      else (st.1 ++ [problem_msg], st.2)
    else st.

Definition check_package (available available_from_repos : list Package)
    (obsoleted obsoleted_from_repos : gset Package)
    (st : ClosureState) (pkg : Package) : ClosureState :=
  if bool_decide (pkg ∈ packages) then st
  else if bool_decide (pkg ∈ obsoleted) then st
  else foldl (check_requirement available available_from_repos
                obsoleted obsoleted_from_repos pkg) st (requires pkg).

(** [find_repoclosure_problems], with the warnings it logs. *)
Definition find_repoclosure_run : ClosureState :=
  let available := filter_latest_per_arch sack in
  let available_from_repos :=
    filter_latest_per_arch (filter_reponame_neq "@commandline" sack) in
  let obsoleted := collect_obsoleted available in
  let obsoleted_from_repos := collect_obsoleted available_from_repos in
  foldl (check_package available available_from_repos
           obsoleted obsoleted_from_repos) ([], []) available.

Definition find_repoclosure_problems : list string := find_repoclosure_run.1.

Definition repoclosure_warnings : list string := find_repoclosure_run.2.

(** *** File conflicts *)

(** [_packages_have_explicit_conflict] *)
Definition _packages_have_explicit_conflict (left right : Package) : bool :=
  let g := goal_run E [left; right] in
  match goal_problems g with
  | [] => false
  | first :: _ => str_contains "conflicts" first
  end.

(** [_file_conflict_is_permitted]; [None] stands for the [KeyError] of a
    header that has no entry for the file name. *)
Definition _file_conflict_is_permitted (left right : Package)
    (filename : string) : option bool :=
  let left_files := rpm_files E (location left) in
  let right_files := rpm_files E (download_package right) in
  l ← left_files !! filename;
  r ← right_files !! filename;
  if file_matches E l r then Some true
  else if bool_decide (color l ≠ color r) then Some true
  else Some false.

Definition conflict_msg (package : Package) (filename : string)
    (conflicting : Package) : string :=
  package_str package +:+ " provides " +:+ filename +:+
  " which is also provided by " +:+ package_str conflicting.

(** The body of the innermost loop of [find_conflicts], on the list
    [problems] collected so far. *)
Definition conflict_step (package : Package) (filename : string)
    (problems : list string) (conflicting : Package) : option (list string) :=
  if bool_decide (conflicting = package) then Some problems
  else if _packages_have_explicit_conflict package conflicting then Some problems
  else
    permitted ← _file_conflict_is_permitted package conflicting filename;
    if negb permitted then
      Some (problems ++ [conflict_msg package filename conflicting])
    else Some problems.

Definition conflict_candidates (filename : string) : list Package :=
  filter_latest_per_arch (filter_file filename sack).


(** *** Upgrades and obsoletions *)

Definition upgrade_msg (package newer : Package) : string :=
  package_str package +:+ " would be upgraded by " +:+ package_str newer +:+
  " from repo " +:+ reponame newer.

Definition obsolete_msg (package obsoleting : Package) : string :=
  package_str package +:+ " would be obsoleted by " +:+ package_str obsoleting +:+
  " from repo " +:+ reponame obsoleting.

(** The body of the outer loop of [find_upgrade_problems]. *)
Definition upgrade_step (problems : list string) (package : Package) : list string :=
  let problems1 :=
    foldl (λ problems newer, problems ++ [upgrade_msg package newer]) problems
          (filter_name_arch_evr_gt (name package) (arch package) (evr package) sack) in
  foldl (λ problems obsoleting, problems ++ [obsolete_msg package obsoleting])
        problems1 (filter_obsoletes package sack).

(** [find_upgrade_problems] *)
Definition find_upgrade_problems : list string :=
  foldl upgrade_step [] packages.

End Analyzer.

(** ** A small universe to run the definitions on *)

Module Demo.

Definition libfoo1 : Package :=
  mkPackage "libfoo" "1.0-1" "x86_64" "base" "Packages/libfoo-1.0-1.x86_64.rpm"
            [] ["/usr/lib64/libfoo.so"].

Definition libfoo2 : Package :=
  mkPackage "libfoo" "2.0-1" "x86_64" "base" "Packages/libfoo-2.0-1.x86_64.rpm"
            [] ["/usr/lib64/libfoo.so"].

Definition tool : Package :=
  mkPackage "tool" "1.0-1" "x86_64" "base" "Packages/tool-1.0-1.x86_64.rpm"
            ["libfoo.so"; "rpmlib(CompressedFileNames)"; "libgone.so"]
            ["/usr/bin/tool"].

Definition bar : Package :=
  mkPackage "bar" "2.0-1" "x86_64" "@commandline" "/tmp/bar-2.0-1.x86_64.rpm"
            ["libfoo.so"] ["/usr/bin/tool"; "/usr/bin/bar"].

Definition libfoo3 : Package :=
  mkPackage "libfoo" "3.0-1" "x86_64" "@commandline" "/tmp/libfoo-3.0-1.x86_64.rpm"
            [] ["/usr/lib64/libfoo.so.3"].

(** A further package under test, for the conflict check: [baz] ships
    its own [/usr/bin/tool] and declares [Conflicts: tool]. *)
Definition baz : Package :=
  mkPackage "baz" "1.0-1" "x86_64" "@commandline" "/tmp/baz-1.0-1.x86_64.rpm"
            [] ["/usr/bin/tool"].

Definition ds_a : DependencySet :=
  add_package DependencySet_init bar "@commandline" [libfoo1] ["a"].

Definition ds_ab : DependencySet :=
  add_package ds_a bar "@commandline" [tool] ["b"].

(** The sack: the repository [base], then the packages under test. *)
Definition sack : list Package := [libfoo1; libfoo2; tool; bar; libfoo3].

Definition under_test : list Package := [bar; libfoo3].

(** [libfoo.so] is provided by [libfoo] up to 2.0; 3.0 dropped it. *)
Definition provides (p : Package) (req : string) : bool :=
  bool_decide (name p = "libfoo" ∧ evr p ≠ "3.0-1" ∧ req = "libfoo.so").

Definition unmet (p : Package) : list string :=
  filter (λ req, ¬ String.prefix "rpmlib(" req ∧
                 Forall (λ q, provides q req = false) sack) (requires p).

(** A resolver for the sack above: it installs what was asked for and
    the first provider of each requirement, or names what is missing. *)
Definition solve (pkgs : list Package) : GoalResult :=
  let clashes :=
    if bool_decide (baz ∈ pkgs ∧ tool ∈ pkgs) then
      ["package baz-1.0-1.x86_64 conflicts with tool provided by tool-1.0-1.x86_64"]
    else [] in
  let missing :=
    clashes ++
    (pkgs ≫= λ p, (λ req, "nothing provides " +:+ req +:+ " needed by "
                            +:+ package_str p) <$> unmet p) in
  if bool_decide (missing = []) then
    mkGoalResult true
      (pkgs ++ (pkgs ≫= λ p, requires p ≫= λ req,
                  take 1 (filter (λ q, provides q req = true) sack)))
      [] [] []
  else mkGoalResult false [] [] [] missing.

Definition headers (path : string) : gmap string FileEntry :=
  if bool_decide (path = "/tmp/bar-2.0-1.x86_64.rpm") then
    {[ "/usr/bin/tool" := mkFileEntry "d41d8c" 2;
       "/usr/bin/bar" := mkFileEntry "9e107d" 2 ]}
  else if bool_decide (path = "/var/tmp/rpmdeplint-base/Packages/tool-1.0-1.x86_64.rpm")
  then {[ "/usr/bin/tool" := mkFileEntry "e4d909" 2 ]}
  else ∅.

Definition env : External :=
  mkExternal (λ a b, String.ltb b a) provides (λ _ _, false) solve headers
             (λ l r, bool_decide (digest l = digest r))
             (λ p, "/var/tmp/rpmdeplint-" +:+ reponame p +:+ "/" +:+ location p).

End Demo.

(** ** Properties of DependencySet *)

Section DependencySetFacts.
Implicit Types (ds : DependencySet) (pkg : Package) (deps : list Package).
Implicit Types (probs : list string) (nevra repo : string).

Lemma add_package_packagedeps ds pkg repo deps probs :
  _packagedeps (add_package ds pkg repo deps probs) =
  <[package_str pkg :=
      let entry := defaultdict_get default_packagedeps (_packagedeps ds)
                     (package_str pkg) in
      mkPackageDeps (dependencies entry ++ map package_str deps)
                    (problems entry ++ probs)]> (_packagedeps ds).
Proof.
  unfold add_package. case_bool_decide as Hlen; simpl.
  - by rewrite insert_insert_eq.
  - destruct probs; [|simpl in Hlen; lia].
    by rewrite app_nil_r.
Qed.

Lemma add_package_overall ds pkg repo deps probs :
  _overall_problems (add_package ds pkg repo deps probs) =
  _overall_problems ds ∪ list_to_set probs.
Proof.
  unfold add_package. destruct probs; simpl; [|done].
  by rewrite (right_id_L ∅ (∪)).
Qed.

Lemma add_package_with_problems ds pkg repo deps probs :
  _packages_with_problems (add_package ds pkg repo deps probs) =
  if bool_decide (probs = []) then _packages_with_problems ds
  else {[package_str pkg]} ∪ _packages_with_problems ds.
Proof.
  unfold add_package. by destruct probs.
Qed.

Lemma add_package_lookup ds pkg repo deps probs nevra :
  _packagedeps (add_package ds pkg repo deps probs) !! nevra =
  if decide (package_str pkg = nevra) then
    Some (let entry := defaultdict_get default_packagedeps (_packagedeps ds)
                         (package_str pkg) in
          mkPackageDeps (dependencies entry ++ map package_str deps)
                        (problems entry ++ probs))
  else _packagedeps ds !! nevra.
Proof. rewrite add_package_packagedeps. apply lookup_insert. Qed.

End DependencySetFacts.

(** A call of [add_package], and the aggregator after a sequence of calls
    on a fresh one. *)
Record AddCall := mkAddCall {
  call_pkg : Package;
  call_repo : string;
  call_deps : list Package;
  call_problems : list string
}.

Definition apply_call (ds : DependencySet) (c : AddCall) : DependencySet :=
  add_package ds (call_pkg c) (call_repo c) (call_deps c) (call_problems c).

Definition run_calls (calls : list AddCall) : DependencySet :=
  foldl apply_call DependencySet_init calls.

(** The invariant that ties the two problem summaries to the per-package
    problem lists. *)
Definition problems_consistent (ds : DependencySet) : Prop :=
  (∀ x, x ∈ _overall_problems ds ↔
        ∃ nevra e, _packagedeps ds !! nevra = Some e ∧ x ∈ problems e) ∧
  (∀ nevra, nevra ∈ _packages_with_problems ds ↔
        ∃ e, _packagedeps ds !! nevra = Some e ∧ problems e ≠ []).

Lemma problems_consistent_init : problems_consistent DependencySet_init.
Proof.
  split; simpl.
  - intros x. split; [set_solver|]. intros (n & e & H & _).
    by rewrite lookup_empty in H.
  - intros n. split; [set_solver|]. intros (e & H & _).
    by rewrite lookup_empty in H.
Qed.

Lemma problems_consistent_add ds pkg repo deps probs :
  problems_consistent ds → problems_consistent (add_package ds pkg repo deps probs).
Proof.
  intros [Hov Hwp]. split.
  - intros x. rewrite add_package_overall, elem_of_union, elem_of_list_to_set, Hov.
    split.
    + intros [(n & e & Hl & Hx) | Hx].
      * destruct (decide (package_str pkg = n)) as [<-|Hne].
        -- eexists _, _. rewrite add_package_lookup, decide_True by done.
           split; [done|]. simpl. apply elem_of_app. left.
           unfold defaultdict_get. by rewrite Hl.
        -- exists n, e. by rewrite add_package_lookup, decide_False.
      * eexists _, _. rewrite add_package_lookup, decide_True by done.
        split; [done|]. simpl. apply elem_of_app. by right.
    + intros (n & e & Hl & Hx). rewrite add_package_lookup in Hl.
      destruct (decide (package_str pkg = n)) as [<-|Hne].
      * injection Hl as <-. simpl in Hx. apply elem_of_app in Hx as [Hx|Hx]; [|by right].
        left. unfold defaultdict_get in Hx.
        destruct (_packagedeps ds !! package_str pkg) as [e|] eqn:He; simpl in Hx.
        -- by exists (package_str pkg), e.
        -- by apply not_elem_of_nil in Hx.
      * left. by exists n, e.
  - intros n. rewrite add_package_with_problems.
    assert (n ∈ _packages_with_problems ds ∨ (probs ≠ [] ∧ n = package_str pkg) ↔
            ∃ e, _packagedeps (add_package ds pkg repo deps probs) !! n = Some e
                 ∧ problems e ≠ []) as Hmain.
    { rewrite Hwp. split.
      - intros [(e & Hl & Hne) | [Hp ->]].
        + destruct (decide (package_str pkg = n)) as [<-|Hd].
          * eexists. rewrite add_package_lookup, decide_True by done.
            split; [done|]. simpl. unfold defaultdict_get. rewrite Hl. simpl.
            destruct (problems e); [done|]. done.
          * exists e. by rewrite add_package_lookup, decide_False.
        + eexists. rewrite add_package_lookup, decide_True by done.
          split; [done|]. simpl. intros Hnil. apply app_eq_nil in Hnil as [_ ?]. done.
      - intros (e & Hl & Hne). rewrite add_package_lookup in Hl.
        destruct (decide (package_str pkg = n)) as [<-|Hd].
        + injection Hl as <-. simpl in Hne.
          destruct probs as [|p probs'].
          * left. rewrite app_nil_r in Hne. unfold defaultdict_get in Hne.
            destruct (_packagedeps ds !! package_str pkg) as [e|] eqn:He; [|done].
            by exists e.
          * by right.
        + left. by exists e. }
    rewrite <-Hmain. case_bool_decide as Hp; set_solver.
Qed.

Lemma problems_consistent_run calls : problems_consistent (run_calls calls).
Proof.
  unfold run_calls. induction calls as [|c calls IH] using rev_ind.
  - apply problems_consistent_init.
  - rewrite foldl_app. simpl. by apply problems_consistent_add.
Qed.

(** *** Adding the same package twice *)

(** C3, as the claim has it, fails: the second call does not replace the
    dependency list.  After [bar] is added with the dependency [libfoo1]
    and again with the dependency [tool], its recorded dependencies are
    both, not those of the second call alone. *)
Lemma add_package_twice_keeps_dependencies :
  (dependencies_for_package Demo.ds_ab (package_str Demo.bar)).1
    = ["libfoo-1.0-1.x86_64"; "tool-1.0-1.x86_64"] ∧
  (dependencies_for_package Demo.ds_ab (package_str Demo.bar)).1
    ≠ map package_str [Demo.tool].
Proof. split; [vm_compute; reflexivity | vm_compute; congruence]. Qed.

(** C3, amended: a second [add_package] for the same NEVRA extends the
    recorded dependency list with the strings of the new dependencies, and
    extends the recorded problem list with the new problems; every problem
    of both calls is among the overall problems.  On an aggregator that
    holds nothing for the package, problems [a] then [b] leave
    the problem list [a; b]. *)
Theorem add_package_twice_extends ds pkg repo1 repo2 deps1 deps2 probs1 probs2 :
  let ds2 := add_package (add_package ds pkg repo1 deps1 probs1)
                         pkg repo2 deps2 probs2 in
  let old := defaultdict_get default_packagedeps (_packagedeps ds) (package_str pkg) in
  _packagedeps ds2 !! package_str pkg =
    Some (mkPackageDeps
            (dependencies old ++ map package_str deps1 ++ map package_str deps2)
            (problems old ++ probs1 ++ probs2)) ∧
  (∀ x, x ∈ probs1 ++ probs2 → x ∈ overall_problems ds2) ∧
  (_packagedeps ds !! package_str pkg = None → ∀ a b,
     probs1 = [a] → probs2 = [b] →
     problems <$> _packagedeps ds2 !! package_str pkg = Some [a; b]).
Proof.
  intros ds2 old.
  assert (_packagedeps ds2 !! package_str pkg =
          Some (mkPackageDeps
            (dependencies old ++ map package_str deps1 ++ map package_str deps2)
            (problems old ++ probs1 ++ probs2))) as Hentry.
  { unfold ds2. rewrite add_package_lookup, decide_True by done.
    unfold defaultdict_get at 1.
    rewrite add_package_lookup, decide_True by done. simpl.
    by rewrite <-!(assoc_L (++)). }
  split; [done|]. split.
  - intros x Hx. unfold overall_problems, ds2. apply elem_of_elements.
    rewrite !add_package_overall. apply elem_of_app in Hx as [Hx|Hx].
    + apply elem_of_union_l, elem_of_union_r. by apply elem_of_list_to_set.
    + apply elem_of_union_r. by apply elem_of_list_to_set.
  - intros Hnone a b -> ->. rewrite Hentry. simpl.
    unfold old, defaultdict_get. by rewrite Hnone.
Qed.

Lemma add_package_twice_extends_witness :
  problems <$> _packagedeps Demo.ds_ab !! package_str Demo.bar = Some ["a"; "b"].
Proof.
  refine (proj2 (proj2 (add_package_twice_extends DependencySet_init Demo.bar
            "@commandline" "@commandline" [Demo.libfoo1] [Demo.tool] ["a"] ["b"]))
          _ "a" "b" _ _); reflexivity.
Defined.

(** *** The aggregator invariant *)

(** C8: after every sequence of [add_package] calls on a fresh
    aggregator, the overall problems are the union of the per-package
    problem lists; they are non-empty exactly when some package has a
    problem, and exactly when [packages_with_problems] is non-empty.
    Adding a package with no problems, to any aggregator, makes it one of
    [packages], and leaves [packages_with_problems] and
    [overall_problems] as they were; on a fresh aggregator the package is
    then not among [packages_with_problems]. *)
Theorem aggregator_invariant (calls : list AddCall) :
  let ds := run_calls calls in
  (∀ x, x ∈ overall_problems ds ↔
        ∃ nevra e, _packagedeps ds !! nevra = Some e ∧ x ∈ problems e) ∧
  (overall_problems ds ≠ [] ↔
        ∃ nevra e, _packagedeps ds !! nevra = Some e ∧ problems e ≠ []) ∧
  (overall_problems ds ≠ [] ↔ packages_with_problems ds ≠ []) ∧
  (∀ ds0 pkg repo deps,
     let ds1 := add_package ds0 pkg repo deps [] in
     package_str pkg ∈ packages_of ds1 ∧
     packages_with_problems ds1 = packages_with_problems ds0 ∧
     overall_problems ds1 = overall_problems ds0) ∧
  (∀ pkg repo deps,
     package_str pkg ∉
       packages_with_problems (add_package DependencySet_init pkg repo deps [])).
Proof.
  intros ds. destruct (problems_consistent_run calls) as [Hov Hwp].
  fold ds in Hov, Hwp.
  assert (overall_problems ds ≠ [] ↔
          ∃ nevra e, _packagedeps ds !! nevra = Some e ∧ problems e ≠ []) as Hne.
  { unfold overall_problems. split.
    - intros Hnil. destruct (elements (_overall_problems ds)) as [|x l] eqn:Hel; [done|].
      assert (x ∈ _overall_problems ds) as Hx.
      { apply elem_of_elements. rewrite Hel. left. }
      apply Hov in Hx as (n & e & Hl & Hx). exists n, e. split; [done|].
      intros Hnil'. rewrite Hnil' in Hx. by apply not_elem_of_nil in Hx.
    - intros (n & e & Hl & Hp) Hnil.
      destruct (problems e) as [|x l] eqn:Hpe; [done|].
      assert (x ∈ _overall_problems ds) as Hx.
      { apply Hov. exists n, e. split; [done|]. rewrite Hpe. left. }
      apply elem_of_elements in Hx. rewrite Hnil in Hx.
      by apply not_elem_of_nil in Hx. }
  split; [|split; [done|split; [|split]]].
  - intros x. unfold overall_problems. rewrite elem_of_elements. apply Hov.
  - rewrite Hne. unfold packages_with_problems. split.
    + intros (n & e & Hl & Hp) Hnil.
      assert (n ∈ _packages_with_problems ds) as Hn by (apply Hwp; eauto).
      apply elem_of_elements in Hn. rewrite Hnil in Hn.
      by apply not_elem_of_nil in Hn.
    + intros Hnil.
      destruct (elements (_packages_with_problems ds)) as [|n l] eqn:Hel; [done|].
      assert (n ∈ _packages_with_problems ds) as Hn.
      { apply elem_of_elements. rewrite Hel. left. }
      apply Hwp in Hn as (e & Hl & Hp). eauto.
  - intros ds0 pkg repo deps ds1. unfold ds1. split; [|split].
    + unfold packages_of. apply elem_of_elements, elem_of_dom.
      rewrite add_package_lookup, decide_True by done. eauto.
    + unfold packages_with_problems. by rewrite add_package_with_problems.
    + unfold overall_problems. rewrite add_package_overall. simpl.
      by rewrite (right_id_L ∅ (∪)).
  - intros pkg repo deps. unfold packages_with_problems.
    rewrite add_package_with_problems. simpl. rewrite elements_empty.
    apply not_elem_of_nil.
Qed.

(** *** The accessors *)

(** C9, as the claim has it, fails: [dependencies_for_package] is not a
    read-only view.  On a fresh aggregator [packages] is empty; after the
    dependencies of a package that was never added have been asked for,
    [packages] lists that package. *)
Lemma dependencies_for_package_changes_packages :
  packages_of DependencySet_init = [] ∧
  (dependencies_for_package DependencySet_init "ghost-1.0-1.noarch").1 = [] ∧
  packages_of (dependencies_for_package DependencySet_init "ghost-1.0-1.noarch").2
    = ["ghost-1.0-1.noarch"].
Proof. repeat split; vm_compute; reflexivity. Qed.

(** C9, amended: [dependencies_for_package] and
    [dependencies_for_repository] leave the aggregator as it is when the
    key is held, and answer with the recorded list; for a key that is not
    held they answer with the empty list, raise nothing, and store the
    empty default under that key, every other component staying as it
    is.  [repository_for_package] fails exactly for the keys that
    [_package_repo] does not hold.  (The property getters are functions of
    the aggregator alone.) *)
Theorem accessors_frame (ds : DependencySet) (nevra repo : string) :
  dependencies_for_package ds nevra =
    match _packagedeps ds !! nevra with
    | Some e => (dependencies e, ds)
    | None =>
        ([], mkDependencySet (<[nevra := default_packagedeps]> (_packagedeps ds))
               (_packages_with_problems ds) (_overall_problems ds) (_repodeps ds)
               (_repo_packages ds) (_package_repo ds))
    end ∧
  dependencies_for_repository ds repo =
    match _repodeps ds !! repo with
    | Some s => (elements s, ds)
    | None =>
        ([], mkDependencySet (_packagedeps ds) (_packages_with_problems ds)
               (_overall_problems ds) (<[repo := ∅]> (_repodeps ds))
               (_repo_packages ds) (_package_repo ds))
    end ∧
  (repository_for_package ds nevra = None ↔ nevra ∉ dom (_package_repo ds)).
Proof.
  split; [|split].
  - unfold dependencies_for_package, defaultdict_touch, defaultdict_get.
    destruct (_packagedeps ds !! nevra) as [e|] eqn:He; simpl; [|done].
    rewrite insert_id by done. by destruct ds.
  - unfold dependencies_for_repository, defaultdict_touch, defaultdict_get.
    destruct (_repodeps ds !! repo) as [s|] eqn:Hs; simpl.
    + rewrite insert_id by done. by destruct ds.
    + by rewrite elements_empty.
  - unfold repository_for_package. by rewrite not_elem_of_dom.
Qed.

(** ** Facts about strings *)

Lemma string_app_cons (x : ascii) (a b : string) :
  String x a +:+ b = String x (a +:+ b).
Proof. reflexivity. Qed.

Lemma string_app_nil_l (a : string) : "" +:+ a = a.
Proof. reflexivity. Qed.

Ltac string_norm :=
  repeat (rewrite ?string_app_cons, ?string_app_nil_l in *; simpl in *).

Lemma string_app_assoc (a b c : string) : (a +:+ b) +:+ c = a +:+ b +:+ c.
Proof. induction a as [|x a IH]; string_norm; [done|]. by f_equal. Qed.

Lemma string_app_nil_r (a : string) : a +:+ "" = a.
Proof. induction a as [|x a IH]; string_norm; [done|]. by f_equal. Qed.

Lemma string_app_length (a b : string) :
  String.length (a +:+ b) = String.length a + String.length b.
Proof. induction a as [|x a IH]; string_norm; [done|]. by f_equal. Qed.

(** Appending the same tail to two strings keeps them apart. *)
Lemma string_app_inv_tail (a b c : string) : a +:+ c = b +:+ c → a = b.
Proof.
  revert b. induction a as [|x a IH]; intros [|y b] H.
  - done.
  - apply (f_equal String.length) in H.
    rewrite !string_app_length in H. simpl in H. lia.
  - apply (f_equal String.length) in H.
    rewrite !string_app_length in H. simpl in H. lia.
  - rewrite !string_app_cons in H. injection H as -> H. f_equal. by apply IH.
Qed.

Lemma prefix_spec (a b : string) :
  String.prefix a b = true ↔ ∃ post, b = a +:+ post.
Proof.
  revert b. induction a as [|x a IH]; intros b.
  - destruct b; simpl; split; eauto.
  - destruct b as [|y b]; simpl.
    + split; [done|]. by intros [post ?].
    + destruct (ascii_dec x y) as [->|Hne].
      * rewrite IH. split; intros [post H]; exists post.
        -- rewrite string_app_cons. congruence.
        -- rewrite string_app_cons in H. congruence.
      * split; [done|]. intros [post H]. rewrite string_app_cons in H. congruence.
Qed.

(** [str_contains] finds the needle exactly when the haystack splits
    around it. *)
Lemma str_contains_spec (needle haystack : string) :
  str_contains needle haystack = true ↔
  ∃ pre post, haystack = pre +:+ needle +:+ post.
Proof.
  induction haystack as [|c h IH].
  - cbn [str_contains]. rewrite orb_false_r, prefix_spec. split.
    + intros [post H]. by exists "", post.
    + intros (pre & post & H). destruct pre; [by exists post|].
      by rewrite string_app_cons in H.
  - cbn [str_contains]. rewrite orb_true_iff, IH, prefix_spec. split.
    + intros [[post H] | (pre & post & H)].
      * by exists "", post.
      * exists (String c pre), post. rewrite string_app_cons. by rewrite H.
    + intros (pre & post & H). destruct pre as [|c' pre].
      * left. by exists post.
      * right. exists pre, post. rewrite string_app_cons in H. congruence.
Qed.

Lemma no_space_app (a b : string) :
  no_space (a +:+ b) = no_space a && no_space b.
Proof.
  induction a as [|x a IH]; [done|].
  rewrite string_app_cons. cbn [no_space].
  rewrite <-andb_assoc. by f_equal.
Qed.

(** A string splits in one way only at its last blank. *)
Lemma split_at_last_space (a a' n n' : string) :
  no_space n = true → no_space n' = true →
  a +:+ " " +:+ n = a' +:+ " " +:+ n' → a = a' ∧ n = n'.
Proof.
  intros Hn Hn'. revert a'.
  induction a as [|x a IH]; intros [|y a'] H;
    rewrite ?string_app_cons, ?string_app_nil_l in H.
  - by injection H.
  - injection H as <- H. rewrite H, no_space_app in Hn.
    cbn [no_space] in Hn. rewrite bool_decide_true in Hn by done.
    simpl in Hn. by rewrite andb_false_r in Hn.
  - injection H as -> H. rewrite <-H, no_space_app in Hn'.
    cbn [no_space] in Hn'. rewrite bool_decide_true in Hn' by done.
    simpl in Hn'. by rewrite andb_false_r in Hn'.
  - injection H as -> H. destruct (IH _ H) as [-> ->]. done.
Qed.

(** ** Install resolution *)

Section InstallFacts.
Context (E : External).


(** What one round of [try_to_install_all] adds to the overall problems. *)
Lemma install_step_overall (ds : DependencySet) (pkg : Package) :
  _overall_problems (install_step E ds pkg) =
  _overall_problems ds ∪ list_to_set (res_problems (try_to_install E [pkg]).2).
Proof.
  unfold install_step. destruct (try_to_install E [pkg]) as [ok results].
  apply add_package_overall.
Qed.

Lemma install_fold_overall (l : list Package) (ds : DependencySet) (x : string) :
  x ∈ _overall_problems (foldl (install_step E) ds l) ↔
  x ∈ _overall_problems ds ∨
  ∃ pkg, pkg ∈ l ∧ x ∈ res_problems (try_to_install E [pkg]).2.
Proof.
  revert ds. induction l as [|p l IH]; intros ds; simpl.
  - split; [by left|]. intros [?|(pkg & Hin & _)]; [done|].
    by apply not_elem_of_nil in Hin.
  - rewrite IH, install_step_overall, elem_of_union, elem_of_list_to_set. split.
    + intros [[?|?]|(pkg & Hin & Hx)]; [by left| |].
      * right. exists p. split; [left|done].
      * right. exists pkg. split; [by right|done].
    + intros [?|(pkg & Hin & Hx)]; [by left; left|].
      apply elem_of_cons in Hin as [->|Hin]; [by left; right|].
      right. by exists pkg.
Qed.

(** The dependencies recorded for a NEVRA are never taken away. *)
Lemma add_package_keeps_dependencies ds pkg repo deps probs nevra x :
  x ∈ (dependencies_for_package ds nevra).1 →
  x ∈ (dependencies_for_package (add_package ds pkg repo deps probs) nevra).1.
Proof.
  unfold dependencies_for_package, defaultdict_get. simpl.
  rewrite add_package_lookup.
  destruct (decide (package_str pkg = nevra)) as [<-|Hne]; [|done].
  simpl. intros Hx. apply elem_of_app. by left.
Qed.

Lemma add_package_records_dependencies ds pkg repo deps probs d :
  d ∈ deps →
  package_str d ∈
    (dependencies_for_package (add_package ds pkg repo deps probs)
                              (package_str pkg)).1.
Proof.
  intros Hd. unfold dependencies_for_package, defaultdict_get. simpl.
  rewrite add_package_lookup, decide_True by done. simpl.
  apply elem_of_app. right. by apply list_elem_of_fmap_2.
Qed.

Lemma install_fold_keeps_dependencies (l : list Package) ds nevra x :
  x ∈ (dependencies_for_package ds nevra).1 →
  x ∈ (dependencies_for_package (foldl (install_step E) ds l) nevra).1.
Proof.
  revert ds. induction l as [|p l IH]; intros ds Hx; [done|].
  simpl. apply IH. unfold install_step.
  destruct (try_to_install E [p]) as [ok results].
  by apply add_package_keeps_dependencies.
Qed.

Lemma install_fold_unfold (l : list Package) (d : DependencySet) :
  foldl (install_step E) d l =
  foldl (λ ds pkg,
           add_package ds pkg (reponame pkg)
             (installs (try_to_install E [pkg]).2)
             (res_problems (try_to_install E [pkg]).2)) d l.
Proof.
  revert d. induction l as [|p l IH]; intros d; [done|].
  simpl. rewrite <-IH. f_equal. unfold install_step.
  by destruct (try_to_install E [p]).
Qed.

(** C5: [try_to_install_all] folds, over the packages under test in
    their order and from a fresh aggregator, the result of the goal that
    installs that one package; its flag is true exactly when the
    overall problems of the aggregator are empty, which is exactly when
    no package on its own has a problem; with no package under test it
    answers true and an aggregator without packages. *)
Theorem try_to_install_all_spec (packages : list Package) :
  ∃ ok ds,
    try_to_install_all E packages = (ok, ds) ∧
    ds = foldl (λ ds pkg,
                  add_package ds pkg (reponame pkg)
                    (installs (try_to_install E [pkg]).2)
                    (res_problems (try_to_install E [pkg]).2))
               DependencySet_init packages ∧
    (ok = true ↔ overall_problems ds = []) ∧
    (ok = true ↔
       ∀ pkg, pkg ∈ packages → res_problems (try_to_install E [pkg]).2 = []) ∧
    try_to_install_all E [] = (true, DependencySet_init) ∧
    packages_of DependencySet_init = [].
Proof.
  eexists _, _. split; [reflexivity|].
  set (ds := foldl (install_step E) DependencySet_init packages).
  assert (bool_decide (length (overall_problems ds) = 0) = true ↔
          overall_problems ds = []) as Hflag.
  { rewrite bool_decide_eq_true. apply length_zero_iff_nil. }
  split; [|split; [done|split; [|split]]].
  - apply install_fold_unfold.
  - rewrite Hflag. unfold overall_problems. split.
    + intros Hnil pkg Hin.
      destruct (res_problems (try_to_install E [pkg]).2) as [|x l] eqn:Hp; [done|].
      assert (x ∈ _overall_problems ds) as Hx.
      { apply install_fold_overall. right. exists pkg. split; [done|].
        rewrite Hp. left. }
      apply elem_of_elements in Hx. rewrite Hnil in Hx.
      by apply not_elem_of_nil in Hx.
    + intros Hall.
      destruct (elements (_overall_problems ds)) as [|x l] eqn:Hel; [done|].
      assert (x ∈ _overall_problems ds) as Hx.
      { apply elem_of_elements. rewrite Hel. left. }
      apply install_fold_overall in Hx as [Hx|(pkg & Hin & Hx)].
      * simpl in Hx. by apply not_elem_of_empty in Hx.
      * rewrite (Hall pkg Hin) in Hx. by apply not_elem_of_nil in Hx.
  - by vm_compute.
  - by vm_compute.
Qed.

(** C10: when the goal that installs one package under test is solved
    and the installs of the solver include that package, the
    dependencies that [try_to_install_all] records for the package
    contain its own NEVRA. *)
Theorem installed_package_is_own_dependency (packages : list Package)
    (pkg : Package) :
  pkg ∈ packages →
  run_ok (goal_run E [pkg]) = true →
  pkg ∈ list_installs (goal_run E [pkg]) →
  package_str pkg ∈
    (dependencies_for_package (try_to_install_all E packages).2
                              (package_str pkg)).1.
Proof.
  intros Hin Hok Hself. unfold try_to_install_all. cbn [snd].
  generalize DependencySet_init.
  induction packages as [|p l IH]; intros ds.
  - by apply not_elem_of_nil in Hin.
  - apply elem_of_cons in Hin as [<-|Hin]; simpl.
    + apply install_fold_keeps_dependencies. unfold install_step, try_to_install.
      rewrite Hok. by apply add_package_records_dependencies.
    + by apply IH.
Qed.

End InstallFacts.




Lemma installed_package_is_own_dependency_witness :
  package_str Demo.bar ∈
    (dependencies_for_package (try_to_install_all Demo.env Demo.under_test).2
                              (package_str Demo.bar)).1.
Proof.
  apply (installed_package_is_own_dependency Demo.env Demo.under_test Demo.bar).
  - left.
  - vm_compute. reflexivity.
  - vm_compute. left.
Defined.

(** ** File conflicts *)

Section ConflictFacts.
Context (E : External) (sack packages : list Package).











(** C7: [_packages_have_explicit_conflict] answers true exactly when the
    goal that installs both packages has a first problem and that problem
    contains the word conflicts.  A round of [find_conflicts] on another
    package than the one under test is skipped, the headers not being
    read, when it answers true; the round goes on to the file check when
    it answers false. *)
Theorem explicit_conflict_skips_pair package filename problems conflicting :
  (_packages_have_explicit_conflict E package conflicting = true ↔
     ∃ first rest,
       goal_problems (goal_run E [package; conflicting]) = first :: rest ∧
       ∃ pre post, first = pre +:+ "conflicts" +:+ post) ∧
  (conflicting ≠ package →
     (_packages_have_explicit_conflict E package conflicting = true →
        conflict_step E packages package filename problems conflicting
          = Some problems) ∧
     (_packages_have_explicit_conflict E package conflicting = false →
        conflict_step E packages package filename problems conflicting =
          _file_conflict_is_permitted E packages package conflicting filename
          ≫= λ permitted : bool,
               Some (if permitted then problems
                     else problems ++ [conflict_msg package filename conflicting]))).
Proof.
  split.
  - unfold _packages_have_explicit_conflict.
    destruct (goal_problems (goal_run E [package; conflicting])) as [|first rest].
    + split; [done|]. by intros (? & ? & ? & _).
    + rewrite str_contains_spec. split.
      * intros Hsub. by exists first, rest.
      * intros (f & r & Heq & Hsub). by injection Heq as -> ->.
  - intros Hne. unfold conflict_step. rewrite bool_decide_false by done.
    split; intros ->; [done|].
    by destruct (_file_conflict_is_permitted E packages package conflicting filename)
      as [[]|].
Qed.


End ConflictFacts.

Lemma explicit_conflict_skips_pair_witness :
  _packages_have_explicit_conflict Demo.env Demo.baz Demo.tool = true ∧
  conflict_step Demo.env [Demo.baz] Demo.baz "/usr/bin/tool" [] Demo.tool = Some [].
Proof.
  split; [vm_compute; reflexivity|].
  apply (explicit_conflict_skips_pair Demo.env [Demo.baz] Demo.baz "/usr/bin/tool"
           [] Demo.tool).
  - vm_compute. discriminate.
  - vm_compute. reflexivity.
Defined.


(** ** Upgrades and obsoletions *)

Section UpgradeFacts.
Context (E : External) (sack packages : list Package).

(** The two queries of [find_upgrade_problems] for a package under test. *)
Definition newer_matches (package : Package) : list Package :=
filter_name_arch_evr_gt E (name package) (arch package) (evr package) sack.

Definition obsoleting_matches (package : Package) : list Package :=
filter_obsoletes E package sack.

Lemma foldl_append_each {A} (f : A → string) (l : list A) (acc : list string) :
  foldl (λ problems x, problems ++ [f x]) acc l = acc ++ (f <$> l).
Proof.
  revert acc. induction l as [|x l IH]; intros acc; simpl.
  - by rewrite app_nil_r.
  - rewrite IH. by rewrite <-(assoc_L (++)).
Qed.

Lemma upgrade_step_appends (problems : list string) (package : Package) :
  upgrade_step E sack problems package =
  problems ++ (upgrade_msg package <$> newer_matches package)
           ++ (obsolete_msg package <$> obsoleting_matches package).
Proof.
  unfold upgrade_step. rewrite !foldl_append_each.
  by rewrite <-(assoc_L (++)).
Qed.

Lemma upgrade_fold_appends (l : list Package) (acc : list string) :
  foldl (upgrade_step E sack) acc l =
  acc ++ (l ≫= λ package,
            (upgrade_msg package <$> newer_matches package) ++
            (obsolete_msg package <$> obsoleting_matches package)).
Proof.
  revert acc. induction l as [|p l IH]; intros acc; simpl.
  - by rewrite app_nil_r.
  - rewrite IH, upgrade_step_appends. by rewrite <-!(assoc_L (++)).
Qed.


End UpgradeFacts.


(** ** Repository closure *)

Section ClosureFacts.
Context (E : External) (sack packages : list Package).

(** The four collections that [find_repoclosure_problems] starts with. *)
Definition available : list Package := filter_latest_per_arch E sack.

Definition available_from_repos : list Package :=
filter_latest_per_arch E (filter_reponame_neq "@commandline" sack).

Definition obsoleted : gset Package := collect_obsoleted E available.

Definition obsoleted_from_repos : gset Package :=
collect_obsoleted E available_from_repos.

(** The two lists of providers that are computed for a requirement. *)
Definition providers (req : string) : list Package :=
filter (λ p, p ∉ obsoleted) (filter_provides E req available).

Definition repo_providers (req : string) : list Package :=
filter (λ p, p ∉ obsoleted_from_repos) (filter_provides E req available_from_repos).

(** What the check of one requirement appends to [problems], and what it
    logs as warnings. *)
Definition requirement_problems (pkg : Package) (req : string) : list string :=
if String.prefix "rpmlib(" req then []
else if bool_decide (providers req = []) then
  if bool_decide (repo_providers req = []) then []
  else [closure_problem_msg req pkg]
else [].

Definition requirement_warnings (pkg : Package) (req : string) : list string :=
if String.prefix "rpmlib(" req then []
else if bool_decide (providers req = []) then
  if bool_decide (repo_providers req = []) then
    [closure_warning (closure_problem_msg req pkg)]
  else []
else [].

Definition package_checked (pkg : Package) : bool :=
negb (bool_decide (pkg ∈ packages)) && negb (bool_decide (pkg ∈ obsoleted)).

Lemma collect_obsoleted_fold (q l : list Package) (acc : gset Package) (p : Package) :
  p ∈ foldl (λ obsoleted pkg,
               if bool_decide (filter_obsoletes E pkg q ≠ []) then obsoleted ∪ {[pkg]}
               else obsoleted) acc l ↔
  p ∈ acc ∨ (p ∈ l ∧ filter_obsoletes E p q ≠ []).
Proof.
  revert acc. induction l as [|x l IH]; intros acc; simpl.
  - split; [by left|]. intros [?|[Hin _]]; [done|]. by apply not_elem_of_nil in Hin.
  - rewrite IH. case_bool_decide as Hx.
    + rewrite elem_of_union, elem_of_singleton, elem_of_cons. split.
      * intros [[?| ->]|[? ?]]; [by left|right|right]; split; auto.
      * intros [?|[[ ->|?] ?]]; [by left; left|by left; right|by right].
    + rewrite elem_of_cons. split.
      * intros [?|[? ?]]; [by left|right]; split; auto.
      * intros [?|[[ ->|?] ?]]; [by left|done|by right].
Qed.

(** A package is in the collected set exactly when it is in the query and
    some package of the query obsoletes it. *)
Lemma collect_obsoleted_elem (q : list Package) (p : Package) :
  p ∈ collect_obsoleted E q ↔
  p ∈ q ∧ ∃ o, o ∈ q ∧ sack_obsoletes E o p = true.
Proof.
  unfold collect_obsoleted. rewrite collect_obsoleted_fold.
  rewrite elem_of_empty. split.
  - intros [Hfalse|[Hp Hne]]; [done|]. split; [done|].
    destruct (filter_obsoletes E p q) as [|o l] eqn:Hf; [done|].
    assert (o ∈ filter_obsoletes E p q) as Ho by (rewrite Hf; left).
    apply list_elem_of_filter in Ho as [? ?]. by exists o.
  - intros [Hp (o & Ho & Hobs)]. right. split; [done|].
    intros Hnil. assert (o ∈ filter_obsoletes E p q) as Hin.
    { apply list_elem_of_filter. done. }
    rewrite Hnil in Hin. by apply not_elem_of_nil in Hin.
Qed.

Lemma check_requirement_appends (pkg : Package) (st : ClosureState) (req : string) :
  check_requirement E available available_from_repos obsoleted obsoleted_from_repos
                    pkg st req =
  (st.1 ++ requirement_problems pkg req, st.2 ++ requirement_warnings pkg req).
Proof.
  unfold check_requirement, requirement_problems, requirement_warnings.
  fold (providers req). fold (repo_providers req). destruct st as [ps ws]. simpl.
  destruct (String.prefix "rpmlib(" req); [by rewrite !app_nil_r|].
  case_bool_decide; [|by rewrite !app_nil_r].
  case_bool_decide; by rewrite app_nil_r.
Qed.

Lemma check_requirements_append (pkg : Package) (reqs : list string)
    (st : ClosureState) :
  foldl (check_requirement E available available_from_repos obsoleted
           obsoleted_from_repos pkg) st reqs =
  (st.1 ++ (reqs ≫= requirement_problems pkg),
   st.2 ++ (reqs ≫= requirement_warnings pkg)).
Proof.
  revert st. induction reqs as [|req reqs IH]; intros st; simpl.
  - destruct st. by rewrite !app_nil_r.
  - rewrite IH, check_requirement_appends. simpl. by rewrite <-!(assoc_L (++)).
Qed.

Lemma check_package_appends (st : ClosureState) (pkg : Package) :
  check_package E packages available available_from_repos obsoleted
                obsoleted_from_repos st pkg =
  if package_checked pkg then
    (st.1 ++ (requires pkg ≫= requirement_problems pkg),
     st.2 ++ (requires pkg ≫= requirement_warnings pkg))
  else st.
Proof.
  unfold check_package, package_checked.
  case_bool_decide; [done|]. case_bool_decide; [done|]. simpl.
  apply check_requirements_append.
Qed.

Lemma check_packages_append (l : list Package) (st : ClosureState) :
  foldl (check_package E packages available available_from_repos obsoleted
           obsoleted_from_repos) st l =
  (st.1 ++ (filter (λ pkg, package_checked pkg = true) l
              ≫= λ pkg, requires pkg ≫= requirement_problems pkg),
   st.2 ++ (filter (λ pkg, package_checked pkg = true) l
              ≫= λ pkg, requires pkg ≫= requirement_warnings pkg)).
Proof.
  revert st. induction l as [|pkg l IH]; intros st; simpl.
  - destruct st. by rewrite !app_nil_r.
  - rewrite IH, check_package_appends.
    destruct (package_checked pkg) eqn:Hc.
    + rewrite filter_cons_True by done. simpl. by rewrite <-!(assoc_L (++)).
    + rewrite filter_cons_False by (by rewrite Hc). done.
Qed.

(** [find_repoclosure_problems] goes through the checked packages of
    [available] and their requirements, in order. *)
Lemma find_repoclosure_run_rounds :
  find_repoclosure_run E sack packages =
  (filter (λ pkg, package_checked pkg = true) available
     ≫= (λ pkg, requires pkg ≫= requirement_problems pkg),
   filter (λ pkg, package_checked pkg = true) available
     ≫= (λ pkg, requires pkg ≫= requirement_warnings pkg)).
Proof. unfold find_repoclosure_run. by rewrite check_packages_append. Qed.

Lemma package_checked_true (pkg : Package) :
  package_checked pkg = true ↔ (pkg ∉ packages) ∧ (pkg ∉ obsoleted).
Proof.
  unfold package_checked.
  rewrite andb_true_iff, !negb_true_iff, !bool_decide_eq_false. done.
Qed.

Lemma providers_nil (req : string) :
  providers req = [] ↔
  ∀ q, q ∈ available → q ∉ obsoleted → sack_provides E q req = false.
Proof.
  unfold providers, filter_provides. split.
  - intros Hnil q Hq Hobs. destruct (sack_provides E q req) eqn:Hp; [|done].
    assert (q ∈ filter (λ p, p ∉ obsoleted)
                  (filter (λ p, sack_provides E p req = true) available)) as Hin.
    { apply list_elem_of_filter. split; [done|]. by apply list_elem_of_filter. }
    rewrite Hnil in Hin. by apply not_elem_of_nil in Hin.
  - intros Hall.
    destruct (filter _ (filter _ available)) as [|q l] eqn:Hf; [done|].
    assert (q ∈ filter (λ p, p ∉ obsoleted)
                  (filter (λ p, sack_provides E p req = true) available)) as Hin.
    { rewrite Hf. left. }
    apply list_elem_of_filter in Hin as [Hobs Hin].
    apply list_elem_of_filter in Hin as [Hp Hin].
    rewrite (Hall q Hin Hobs) in Hp. done.
Qed.

Lemma repo_providers_not_nil (req : string) :
  repo_providers req ≠ [] ↔
  ∃ q, q ∈ available_from_repos ∧ (q ∉ obsoleted_from_repos) ∧
       sack_provides E q req = true.
Proof.
  unfold repo_providers, filter_provides. split.
  - intros Hne.
    destruct (filter _ (filter _ available_from_repos)) as [|q l] eqn:Hf; [done|].
    assert (q ∈ filter (λ p, p ∉ obsoleted_from_repos)
              (filter (λ p, sack_provides E p req = true) available_from_repos))
      as Hin.
    { rewrite Hf. left. }
    apply list_elem_of_filter in Hin as [Hobs Hin].
    apply list_elem_of_filter in Hin as [Hp Hin]. by exists q.
  - intros (q & Hq & Hobs & Hp) Hnil.
    assert (q ∈ filter (λ p, p ∉ obsoleted_from_repos)
              (filter (λ p, sack_provides E p req = true) available_from_repos))
      as Hin.
    { apply list_elem_of_filter. split; [done|]. by apply list_elem_of_filter. }
    rewrite Hnil in Hin. by apply not_elem_of_nil in Hin.
Qed.

(** The problem string names its requirement: two of them are equal only
    for the same requirement, when the NEVRAs hold no blank. *)
Lemma closure_problem_msg_inj (req req' : string) (pkg pkg' : Package) :
  no_space (package_str pkg) = true → no_space (package_str pkg') = true →
  closure_problem_msg req pkg = closure_problem_msg req' pkg' → req = req'.
Proof.
  intros Hn Hn' Heq. unfold closure_problem_msg in Heq.
  apply (inj (String.app "nothing provides ")) in Heq.
  assert (∀ r n, r +:+ " needed by " +:+ n = (r +:+ " needed by") +:+ " " +:+ n)
    as Hsplit.
  { intros r n. by rewrite string_app_assoc. }
  rewrite !Hsplit in Heq.
  apply split_at_last_space in Heq as [Heq _]; [|done|done].
  by apply string_app_inv_tail in Heq.
Qed.

Lemma available_in_sack (p : Package) : p ∈ available → p ∈ sack.
Proof. unfold available, filter_latest_per_arch. by intros [_ ?]%list_elem_of_filter. Qed.

(** The check of one requirement of one checked package, in terms of
    the two provider lists. *)
Lemma requirement_reported (p : Package) (r : string) :
  p ∈ available → p ∉ packages → p ∉ obsoleted →
  r ∈ requires p → String.prefix "rpmlib(" r = false →
  forallb (λ q, no_space (package_str q)) sack = true →
  (closure_problem_msg r p ∈ find_repoclosure_problems E sack packages ↔
     providers r = [] ∧ repo_providers r ≠ []) ∧
  (providers r = [] → repo_providers r = [] →
     closure_warning (closure_problem_msg r p) ∈ repoclosure_warnings E sack packages).
Proof.
  intros Hp Htest Hobs Hr Hpre Hwf.
  assert (∀ q, q ∈ available → no_space (package_str q) = true) as Hnames.
  { intros q Hq. rewrite forallb_forall in Hwf. apply Hwf.
    apply list_elem_of_In. by apply available_in_sack. }
  split.
  - unfold find_repoclosure_problems. rewrite find_repoclosure_run_rounds. cbn [fst].
    split.
    + intros Hin. apply list_elem_of_bind in Hin as (p' & Hin & Hp').
      apply list_elem_of_filter in Hp' as [_ Hp'].
      apply list_elem_of_bind in Hin as (r' & Hin & Hr').
      unfold requirement_problems in Hin.
      destruct (String.prefix "rpmlib(" r'); [by apply not_elem_of_nil in Hin|].
      case_bool_decide as Hprov; [|by apply not_elem_of_nil in Hin].
      case_bool_decide as Hrepo; [by apply not_elem_of_nil in Hin|].
      apply list_elem_of_singleton in Hin.
      apply closure_problem_msg_inj in Hin as ->; auto.
    + intros [Ha Hb]. apply list_elem_of_bind. exists p. split.
      * apply list_elem_of_bind. exists r. split; [|done].
        unfold requirement_problems. rewrite Hpre.
        rewrite bool_decide_true by done. rewrite bool_decide_false by done.
        by apply list_elem_of_singleton.
      * apply list_elem_of_filter. split; [|done]. by apply package_checked_true.
  - intros Ha Hb. unfold repoclosure_warnings.
    rewrite find_repoclosure_run_rounds. cbn [snd].
    apply list_elem_of_bind. exists p. split.
    + apply list_elem_of_bind. exists r. split; [|done].
      unfold requirement_warnings. rewrite Hpre.
      rewrite bool_decide_true by done. rewrite bool_decide_true by done.
      by apply list_elem_of_singleton.
    + apply list_elem_of_filter. split; [|done]. by apply package_checked_true.
Qed.

(** Some package of the query obsoletes the package: what
    [q.filter(obsoletes=[p])] being non-empty says. *)
Definition obsoleted_within (q : list Package) (p : Package) : Prop :=
Exists (λ o, sack_obsoletes E o p = true) q.

Global Instance obsoleted_within_dec (q : list Package) (p : Package) :
  Decision (obsoleted_within q p).
Proof. unfold obsoleted_within. apply _. Defined.

Lemma collect_obsoleted_within (q : list Package) (p : Package) :
  p ∈ q → (p ∉ collect_obsoleted E q ↔ ¬ obsoleted_within q p).
Proof.
  intros Hp. rewrite collect_obsoleted_elem. unfold obsoleted_within.
  rewrite Exists_exists. split.
  - intros Hno Hex. apply Hno. by split.
  - intros Hno [_ Hex]. by apply Hno.
Qed.

Lemma providers_nil_within (r : string) :
  providers r = [] ↔
  ∀ q, q ∈ available → ¬ obsoleted_within available q →
       sack_provides E q r = false.
Proof.
  rewrite providers_nil. split; intros Hall q Hq Hobs; apply Hall; try done.
  - by apply (collect_obsoleted_within available q Hq).
  - by apply (collect_obsoleted_within available q Hq) in Hobs.
Qed.

Lemma repo_providers_within (r : string) :
  repo_providers r ≠ [] ↔
  ∃ q, q ∈ available_from_repos ∧ ¬ obsoleted_within available_from_repos q ∧
       sack_provides E q r = true.
Proof.
  rewrite repo_providers_not_nil. split; intros (q & Hq & Hobs & Hprov); exists q;
    (split; [done|]); (split; [|done]).
  - by apply (collect_obsoleted_within available_from_repos q Hq).
  - by apply (collect_obsoleted_within available_from_repos q Hq) in Hobs.
Qed.

(** C1, amended: take a package of [available] that is not under test
    and that no package of [available], itself included, obsoletes, and
    a requirement of it that does not start with [rpmlib(]; the NEVRAs of
    the sack hold no blank.  The string
    "nothing provides <requirement> needed by <package>" is among the
    problems exactly when (a) no package of [available] that no package
    of [available] obsoletes provides the requirement and (b) some
    package of [available_from_repos] that no package of
    [available_from_repos] obsoletes provides it.  When (a) holds and (b)
    does not, the string is not among the problems and the warning about
    it is logged. *)
Theorem repoclosure_reports_iff (p : Package) (r : string) :
  p ∈ available → p ∉ packages → ¬ obsoleted_within available p →
  r ∈ requires p → String.prefix "rpmlib(" r = false →
  forallb (λ q, no_space (package_str q)) sack = true →
  let a := ∀ q, q ∈ available → ¬ obsoleted_within available q →
                sack_provides E q r = false in
  let b := ∃ q, q ∈ available_from_repos ∧
                ¬ obsoleted_within available_from_repos q ∧
                sack_provides E q r = true in
  (closure_problem_msg r p ∈ find_repoclosure_problems E sack packages ↔ a ∧ b) ∧
  (a → ¬ b →
     (closure_problem_msg r p ∉ find_repoclosure_problems E sack packages) ∧
     closure_warning (closure_problem_msg r p) ∈ repoclosure_warnings E sack packages).
Proof.
  intros Hp Htest Hobs Hr Hpre Hwf a b.
  assert (p ∉ obsoleted) as Hset by (by apply collect_obsoleted_within).
  destruct (requirement_reported p r Hp Htest Hset Hr Hpre Hwf) as [Hiff Hwarn].
  assert (closure_problem_msg r p ∈ find_repoclosure_problems E sack packages ↔ a ∧ b)
    as Hab.
  { rewrite Hiff. unfold a, b. by rewrite providers_nil_within, repo_providers_within. }
  split; [done|]. intros Ha Hb. split.
  - rewrite Hab. by intros [_ ?].
  - apply Hwarn; [by apply providers_nil_within|].
    destruct (repo_providers r) eqn:Hrp; [done|]. exfalso. apply Hb.
    apply repo_providers_within. by rewrite Hrp.
Qed.

End ClosureFacts.

(** ** Universes in which packages are obsoleted *)

Module Supersede.

(** A package under test that takes the place of [libfoo] and does not
    provide [libfoo.so]. *)
Definition newfoo : Package :=
  mkPackage "newfoo" "1.0-1" "x86_64" "@commandline" "/tmp/newfoo-1.0-1.x86_64.rpm"
            [] ["/usr/lib64/libnewfoo.so"].

Definition sack : list Package :=
  [Demo.libfoo1; Demo.libfoo2; Demo.tool; newfoo].

Definition under_test : list Package := [newfoo].

Definition obsoletes (o p : Package) : bool :=
  bool_decide (name o = "newfoo" ∧ name p = "libfoo").

Definition env : External :=
  mkExternal (evr_gt Demo.env) Demo.provides obsoletes (goal_run Demo.env)
             (rpm_files Demo.env) (file_matches Demo.env)
             (repo_download_package Demo.env).

(** A repository package that declares an obsoletion of its own name, a
    provider of what it requires, and a package under test that takes
    the place of the provider. *)
Definition user : Package :=
  mkPackage "user" "1.0-1" "x86_64" "base" "Packages/user-1.0-1.x86_64.rpm"
            ["cap"] [].

Definition prov : Package :=
  mkPackage "prov" "1.0-1" "x86_64" "base" "Packages/prov-1.0-1.x86_64.rpm"
            [] [].

Definition newprov : Package :=
  mkPackage "newprov" "1.0-1" "x86_64" "@commandline"
            "/tmp/newprov-1.0-1.x86_64.rpm" [] [].

Definition self_sack : list Package := [user; prov; newprov].

Definition self_env : External :=
  mkExternal (evr_gt Demo.env)
             (λ p req, bool_decide (name p = "prov" ∧ req = "cap"))
             (λ o p, bool_decide ((name o = "user" ∧ name p = "user") ∨
                                  (name o = "newprov" ∧ name p = "prov")))
             (goal_run Demo.env) (rpm_files Demo.env) (file_matches Demo.env)
             (repo_download_package Demo.env).

(** Two repository packages whose problem strings are the same string:
    the name of the first holds blanks. *)
Definition odd : Package :=
  mkPackage "foo needed by bar" "1.0-1" "x86_64" "base"
            "Packages/odd-1.0-1.x86_64.rpm" ["cap"] [].

Definition plain : Package :=
  mkPackage "bar" "1.0-1" "x86_64" "base" "Packages/bar-1.0-1.x86_64.rpm"
            ["cap needed by foo"] [].

Definition blank_sack : list Package := [odd; plain; prov; newprov].

Definition blank_env : External :=
  mkExternal (evr_gt Demo.env)
             (λ p req, bool_decide (name p = "prov" ∧ req = "cap needed by foo"))
             (λ o p, bool_decide (name o = "newprov" ∧ name p = "prov"))
             (goal_run Demo.env) (rpm_files Demo.env) (file_matches Demo.env)
             (repo_download_package Demo.env).

End Supersede.

(** Some other package of the query obsoletes the package. *)
Definition obsoleted_by_another (E : External) (q : list Package) (p : Package) :
    Prop :=
  Exists (λ o, o ≠ p ∧ sack_obsoletes E o p = true) q.

Global Instance obsoleted_by_another_dec E q p :
  Decision (obsoleted_by_another E q p).
Proof. unfold obsoleted_by_another. apply _. Defined.

(** C1, as the claim has it, fails in two ways.  First, a package that
    only itself obsoletes is left unchecked: [user] is in [available],
    not under test and obsoleted by no other package; no package of
    [available] that no other one obsoletes provides its requirement
    [cap], and [prov], which no other package of [available_from_repos]
    obsoletes, provides it; yet nothing is reported.  Second, the string
    does not always tell the requirement: [odd] requires [cap], which no
    package of the sack provides, so its problem should only be logged;
    yet its string is reported, being also the string of [plain] and of
    the requirement of [plain]. *)
Lemma repoclosure_claim_fails :
  (Supersede.user ∈ available Supersede.self_env Supersede.self_sack ∧
   (Supersede.user ∉ [Supersede.newprov]) ∧
   ¬ obsoleted_by_another Supersede.self_env
       (available Supersede.self_env Supersede.self_sack) Supersede.user ∧
   "cap" ∈ requires Supersede.user ∧
   String.prefix "rpmlib(" "cap" = false ∧
   Forall (λ q, ¬ obsoleted_by_another Supersede.self_env
                    (available Supersede.self_env Supersede.self_sack) q →
                sack_provides Supersede.self_env q "cap" = false)
          (available Supersede.self_env Supersede.self_sack) ∧
   (Supersede.prov ∈ available_from_repos Supersede.self_env Supersede.self_sack ∧
    ¬ obsoleted_by_another Supersede.self_env
        (available_from_repos Supersede.self_env Supersede.self_sack)
        Supersede.prov ∧
    sack_provides Supersede.self_env Supersede.prov "cap" = true) ∧
   (closure_problem_msg "cap" Supersede.user
      ∉ find_repoclosure_problems Supersede.self_env Supersede.self_sack
          [Supersede.newprov])) ∧
  (Supersede.odd ∈ available Supersede.blank_env Supersede.blank_sack ∧
   (Supersede.odd ∉ [Supersede.newprov]) ∧
   ¬ obsoleted_within Supersede.blank_env
       (available Supersede.blank_env Supersede.blank_sack) Supersede.odd ∧
   "cap" ∈ requires Supersede.odd ∧
   String.prefix "rpmlib(" "cap" = false ∧
   Forall (λ q, sack_provides Supersede.blank_env q "cap" = false)
          Supersede.blank_sack ∧
   closure_problem_msg "cap" Supersede.odd
     ∈ find_repoclosure_problems Supersede.blank_env Supersede.blank_sack
         [Supersede.newprov]).
Proof.
  split.
  - repeat split; apply (bool_decide_eq_true_1 _); vm_compute; reflexivity.
  - repeat split; apply (bool_decide_eq_true_1 _); vm_compute; reflexivity.
Qed.

Lemma repoclosure_reports_iff_witness :
  (∀ q, q ∈ available Supersede.env Supersede.sack →
        ¬ obsoleted_within Supersede.env (available Supersede.env Supersede.sack) q →
        sack_provides Supersede.env q "libfoo.so" = false) ∧
  (∃ q, q ∈ available_from_repos Supersede.env Supersede.sack ∧
        ¬ obsoleted_within Supersede.env
            (available_from_repos Supersede.env Supersede.sack) q ∧
        sack_provides Supersede.env q "libfoo.so" = true).
Proof.
  refine (proj1 (proj1 (repoclosure_reports_iff Supersede.env Supersede.sack
            Supersede.under_test Demo.tool "libfoo.so" _ _ _ _ _ _)) _).
  - apply (bool_decide_eq_true_1 _). vm_compute. reflexivity.
  - apply (bool_decide_eq_true_1 _). vm_compute. reflexivity.
  - apply (bool_decide_eq_true_1 _). vm_compute. reflexivity.
  - left.
  - vm_compute. reflexivity.
  - vm_compute. reflexivity.
  - apply (bool_decide_eq_true_1 _). vm_compute. reflexivity.
Defined.

(** ** The aggregator as a function of the calls made on it *)

Section AggregatorHistory.
Implicit Types (ds : DependencySet) (c : AddCall) (calls : list AddCall).
Implicit Types (n r : string).

(** The calls of a sequence that add the package with a given NEVRA. *)
Definition calls_for (n : string) (calls : list AddCall) : list AddCall :=
filter (λ c, package_str (call_pkg c) = n) calls.

(** The entry of [_packagedeps] that a sequence of calls for one NEVRA
    builds up. *)
Definition history_entry (cs : list AddCall) : PackageDeps :=
mkPackageDeps (cs ≫= λ c, map package_str (call_deps c))
              (cs ≫= call_problems).

Lemma run_calls_snoc calls c :
  run_calls (calls ++ [c]) = apply_call (run_calls calls) c.
Proof. unfold run_calls. by rewrite foldl_app. Qed.

Lemma add_package_repodeps ds pkg repo deps probs :
  _repodeps (add_package ds pkg repo deps probs) =
  <[repo := defaultdict_get ∅ (_repodeps ds) repo
            ∪ list_to_set (map reponame deps)]> (_repodeps ds).
Proof. unfold add_package. by destruct probs. Qed.

Lemma add_package_repo_packages ds pkg repo deps probs :
  _repo_packages (add_package ds pkg repo deps probs) =
  <[repo := defaultdict_get ∅ (_repo_packages ds) repo ∪ {[package_str pkg]}]>
    (_repo_packages ds).
Proof. unfold add_package. by destruct probs. Qed.

Lemma add_package_package_repo ds pkg repo deps probs :
  _package_repo (add_package ds pkg repo deps probs) =
  <[package_str pkg := repo]> (_package_repo ds).
Proof. unfold add_package. by destruct probs. Qed.

Lemma calls_for_snoc n calls c :
  calls_for n (calls ++ [c]) =
  if decide (package_str (call_pkg c) = n) then calls_for n calls ++ [c]
  else calls_for n calls.
Proof.
  unfold calls_for. rewrite filter_app.
  destruct (decide (package_str (call_pkg c) = n)) as [Heq|Hne].
  - by rewrite filter_cons_True by done.
  - rewrite filter_cons_False by done. by rewrite app_nil_r.
Qed.

Lemma calls_for_nil_iff n calls :
  calls_for n calls = [] ↔ ¬ ∃ c, c ∈ calls ∧ package_str (call_pkg c) = n.
Proof.
  unfold calls_for. split.
  - intros Hnil (c & Hc & Hn).
    assert (c ∈ filter (λ c, package_str (call_pkg c) = n) calls) as Hin
      by (by apply list_elem_of_filter).
    rewrite Hnil in Hin. by apply not_elem_of_nil in Hin.
  - intros Hno. destruct (filter _ calls) as [|c l] eqn:Hf; [done|].
    exfalso. apply Hno. exists c.
    assert (c ∈ filter (λ c, package_str (call_pkg c) = n) calls) as Hin
      by (rewrite Hf; left).
    apply list_elem_of_filter in Hin as [? ?]. done.
Qed.

Lemma run_calls_packagedeps calls n :
  _packagedeps (run_calls calls) !! n =
  (if bool_decide (calls_for n calls = []) then None
   else Some (history_entry (calls_for n calls))).
Proof.
  induction calls as [|c calls IH] using rev_ind; [done|].
  rewrite run_calls_snoc. unfold apply_call.
  rewrite add_package_lookup, calls_for_snoc.
  destruct (decide (package_str (call_pkg c) = n)) as [Heq|Hne]; [|done].
  rewrite bool_decide_false by (by destruct (calls_for n calls)).
  f_equal. unfold defaultdict_get. rewrite Heq, IH.
  unfold history_entry. rewrite !bind_app. simpl. rewrite !app_nil_r.
  by case_bool_decide as Hnil; [rewrite Hnil|].
Qed.

Lemma run_calls_package_repo calls n :
  repository_for_package (run_calls calls) n =
  call_repo <$> last (calls_for n calls).
Proof.
  unfold repository_for_package.
  induction calls as [|c calls IH] using rev_ind; [done|].
  rewrite run_calls_snoc. unfold apply_call.
  rewrite add_package_package_repo, calls_for_snoc, lookup_insert.
  destruct (decide (package_str (call_pkg c) = n)) as [Heq|Hne].
  - by rewrite last_snoc.
  - done.
Qed.

Lemma calls_for_not_nil n calls :
  calls_for n calls ≠ [] ↔ ∃ c, c ∈ calls ∧ package_str (call_pkg c) = n.
Proof.
  split.
  - intros Hne. destruct (calls_for n calls) as [|c l] eqn:Hf; [done|].
    assert (c ∈ calls_for n calls) as Hin by (rewrite Hf; left).
    apply list_elem_of_filter in Hin as [? ?]. by exists c.
  - intros Hex Hnil. by apply calls_for_nil_iff in Hnil.
Qed.

Lemma run_calls_packages calls n :
  n ∈ packages_of (run_calls calls) ↔
  ∃ c, c ∈ calls ∧ package_str (call_pkg c) = n.
Proof.
  rewrite <-calls_for_not_nil.
  unfold packages_of. rewrite elem_of_elements, elem_of_dom, run_calls_packagedeps.
  case_bool_decide as Hnil; split; try done.
Qed.

(** X1: what the aggregator holds for a NEVRA after a sequence of calls
    is the history of the calls for that NEVRA, in their order: the
    dependency strings of all of them one after the other, and their
    problems one after the other; it holds an entry exactly when there is
    such a call. *)
Theorem packagedeps_is_history calls n :
  _packagedeps (run_calls calls) !! n =
    (if bool_decide (calls_for n calls = []) then None
     else Some (history_entry (calls_for n calls))) ∧
  (dependencies_for_package (run_calls calls) n).1 =
    (calls_for n calls ≫= λ c, map package_str (call_deps c)).
Proof.
  split; [apply run_calls_packagedeps|].
  unfold dependencies_for_package, defaultdict_get. cbn [fst].
  rewrite run_calls_packagedeps.
  by case_bool_decide as Hnil; [rewrite Hnil|].
Qed.

(** X2: [repository_for_package] answers with the repository of the last
    call for the NEVRA, and fails exactly when no call was for it. *)
Theorem repository_is_last_writer calls n :
  repository_for_package (run_calls calls) n =
    call_repo <$> last (calls_for n calls) ∧
  (repository_for_package (run_calls calls) n = None ↔
     ∀ c, c ∈ calls → package_str (call_pkg c) ≠ n).
Proof.
  split; [apply run_calls_package_repo|].
  rewrite run_calls_package_repo, fmap_None, last_None, calls_for_nil_iff.
  split.
  - intros Hno c Hc Hn. apply Hno. by exists c.
  - intros Hall (c & Hc & Hn). by apply (Hall c).
Qed.

(** X3: [packages] lists exactly the NEVRAs that were added, and each of
    them has a repository: [repository_for_package] fails on none. *)
Theorem packages_are_the_added calls n :
  (n ∈ packages_of (run_calls calls) ↔
     ∃ c, c ∈ calls ∧ package_str (call_pkg c) = n) ∧
  (n ∈ packages_of (run_calls calls) ↔
     is_Some (repository_for_package (run_calls calls) n)).
Proof.
  split; [apply run_calls_packages|].
  rewrite run_calls_packages, run_calls_package_repo, fmap_is_Some, last_is_Some.
  by rewrite calls_for_not_nil.
Qed.

Lemma run_calls_repodeps calls r r' :
  r' ∈ defaultdict_get ∅ (_repodeps (run_calls calls)) r ↔
  ∃ c d, c ∈ calls ∧ call_repo c = r ∧ d ∈ call_deps c ∧ reponame d = r'.
Proof.
  induction calls as [|c calls IH] using rev_ind.
  - unfold defaultdict_get. simpl. rewrite lookup_empty. simpl. split.
    + intros H. by apply not_elem_of_empty in H.
    + intros (c & d & Hc & _). by apply not_elem_of_nil in Hc.
  - rewrite run_calls_snoc. unfold apply_call. rewrite add_package_repodeps.
    unfold defaultdict_get at 1. rewrite lookup_insert.
    destruct (decide (call_repo c = r)) as [Heq|Hne]; simpl.
    + rewrite Heq. rewrite elem_of_union, IH, elem_of_list_to_set. split.
      * intros [(c' & d & Hc' & Hr & Hd & Hrd)|Hin].
        -- exists c', d. rewrite elem_of_app. auto.
        -- apply list_elem_of_fmap in Hin as (d & -> & Hd).
           exists c, d. rewrite elem_of_app, list_elem_of_singleton. auto.
      * intros (c' & d & Hc' & Hr & Hd & Hrd).
        apply elem_of_app in Hc' as [Hc'|Hc'].
        -- left. by exists c', d.
        -- apply list_elem_of_singleton in Hc' as ->. right.
           apply list_elem_of_fmap. by exists d.
    + fold (defaultdict_get ∅ (_repodeps (run_calls calls)) r). rewrite IH. split.
      * intros (c' & d & Hc' & ?). exists c', d. rewrite elem_of_app. auto.
      * intros (c' & d & Hc' & Hr & Hd & Hrd).
        apply elem_of_app in Hc' as [Hc'|Hc']; [by exists c', d|].
        apply list_elem_of_singleton in Hc' as ->. done.
Qed.

Lemma run_calls_repodeps_dom calls r :
  r ∈ dom (_repodeps (run_calls calls)) ↔ ∃ c, c ∈ calls ∧ call_repo c = r.
Proof.
  induction calls as [|c calls IH] using rev_ind.
  - simpl. rewrite dom_empty_L. split; [set_solver|].
    intros (c & Hc & _). by apply not_elem_of_nil in Hc.
  - rewrite run_calls_snoc. unfold apply_call.
    rewrite add_package_repodeps, dom_insert_L, elem_of_union, elem_of_singleton, IH.
    split.
    + intros [->|(c' & Hc' & Hr)].
      * exists c. rewrite elem_of_app, list_elem_of_singleton. auto.
      * exists c'. rewrite elem_of_app. auto.
    + intros (c' & Hc' & Hr). apply elem_of_app in Hc' as [Hc'|Hc'].
      * right. by exists c'.
      * apply list_elem_of_singleton in Hc' as ->. by left.
Qed.

(** X4: the repositories that [dependencies_for_repository] answers with
    for a repository are exactly the repositories of the dependencies of
    the calls made with that repository, and the keys of
    [repository_dependencies] are exactly the repositories that calls
    were made with, whether or not they brought dependencies. *)
Theorem repository_edges calls r r' :
  (r' ∈ (dependencies_for_repository (run_calls calls) r).1 ↔
     ∃ c d, c ∈ calls ∧ call_repo c = r ∧ d ∈ call_deps c ∧ reponame d = r') ∧
  (is_Some (repository_dependencies (run_calls calls) !! r) ↔
     ∃ c, c ∈ calls ∧ call_repo c = r).
Proof.
  split.
  - unfold dependencies_for_repository. cbn [fst]. rewrite elem_of_elements.
    apply run_calls_repodeps.
  - unfold repository_dependencies. rewrite lookup_fmap, fmap_is_Some.
    rewrite <-elem_of_dom. apply run_calls_repodeps_dom.
Qed.

End AggregatorHistory.

Section AggregatorSummaries.
Implicit Types (ds : DependencySet) (c : AddCall) (calls : list AddCall).

Lemma run_calls_overall calls x :
  x ∈ _overall_problems (run_calls calls) ↔ ∃ c, c ∈ calls ∧ x ∈ call_problems c.
Proof.
  induction calls as [|c calls IH] using rev_ind.
  - simpl. split; [set_solver|]. intros (c & Hc & _). by apply not_elem_of_nil in Hc.
  - rewrite run_calls_snoc. unfold apply_call.
    rewrite add_package_overall, elem_of_union, IH, elem_of_list_to_set. split.
    + intros [(c' & Hc' & Hx)|Hx].
      * exists c'. rewrite elem_of_app. auto.
      * exists c. rewrite elem_of_app, list_elem_of_singleton. auto.
    + intros (c' & Hc' & Hx). apply elem_of_app in Hc' as [Hc'|Hc'].
      * left. by exists c'.
      * apply list_elem_of_singleton in Hc' as ->. by right.
Qed.

Lemma run_calls_with_problems calls n :
  n ∈ _packages_with_problems (run_calls calls) ↔
  ∃ c, c ∈ calls ∧ package_str (call_pkg c) = n ∧ call_problems c ≠ [].
Proof.
  induction calls as [|c calls IH] using rev_ind.
  - simpl. split; [set_solver|]. intros (c & Hc & _). by apply not_elem_of_nil in Hc.
  - rewrite run_calls_snoc. unfold apply_call. rewrite add_package_with_problems.
    case_bool_decide as Hp.
    + rewrite IH. split.
      * intros (c' & Hc' & ?). exists c'. rewrite elem_of_app. auto.
      * intros (c' & Hc' & Hn & Hne). apply elem_of_app in Hc' as [Hc'|Hc'].
        -- by exists c'.
        -- apply list_elem_of_singleton in Hc' as ->. done.
    + rewrite elem_of_union, elem_of_singleton, IH. split.
      * intros [->|(c' & Hc' & ?)].
        -- exists c. rewrite elem_of_app, list_elem_of_singleton. auto.
        -- exists c'. rewrite elem_of_app. auto.
      * intros (c' & Hc' & Hn & Hne). apply elem_of_app in Hc' as [Hc'|Hc'].
        -- right. by exists c'.
        -- apply list_elem_of_singleton in Hc' as ->. by left.
Qed.

(** X5: after a sequence of calls, [overall_problems] holds exactly the
    problems handed to some call, and [packages_with_problems] exactly the
    NEVRAs of the calls that were handed at least one problem; each of
    the latter is one of [packages]. *)
Theorem summaries_from_calls calls :
  (∀ x, x ∈ overall_problems (run_calls calls) ↔
        ∃ c, c ∈ calls ∧ x ∈ call_problems c) ∧
  (∀ n, n ∈ packages_with_problems (run_calls calls) ↔
        ∃ c, c ∈ calls ∧ package_str (call_pkg c) = n ∧ call_problems c ≠ []) ∧
  (∀ n, n ∈ packages_with_problems (run_calls calls) →
        n ∈ packages_of (run_calls calls)).
Proof.
  split; [|split].
  - intros x. unfold overall_problems. rewrite elem_of_elements.
    apply run_calls_overall.
  - intros n. unfold packages_with_problems. rewrite elem_of_elements.
    apply run_calls_with_problems.
  - intros n. unfold packages_with_problems. rewrite elem_of_elements.
    rewrite run_calls_with_problems. intros (c & Hc & Hn & _).
    apply run_calls_packages. by exists c.
Qed.

(** X6: the order of the calls does not show in what the summaries
    hold: two sequences with the same calls, in any order, leave the same
    set of overall problems, the same set of packages with problems and
    the same tracked NEVRAs, so the lists that [overall_problems],
    [packages_with_problems] and [packages] answer with hold the same
    elements. *)
Theorem summaries_ignore_order calls calls' :
  calls ≡ₚ calls' →
  _overall_problems (run_calls calls) = _overall_problems (run_calls calls') ∧
  _packages_with_problems (run_calls calls) =
    _packages_with_problems (run_calls calls') ∧
  dom (_packagedeps (run_calls calls)) = dom (_packagedeps (run_calls calls')) ∧
  (∀ x, x ∈ overall_problems (run_calls calls) ↔
        x ∈ overall_problems (run_calls calls')) ∧
  (∀ n, n ∈ packages_with_problems (run_calls calls) ↔
        n ∈ packages_with_problems (run_calls calls')) ∧
  (∀ n, n ∈ packages_of (run_calls calls) ↔ n ∈ packages_of (run_calls calls')).
Proof.
  intros Hperm.
  assert (∀ c, c ∈ calls ↔ c ∈ calls') as Hmem by (intros c; by rewrite Hperm).
  assert (_overall_problems (run_calls calls) = _overall_problems (run_calls calls'))
    as Hov.
  { apply set_eq. intros x. rewrite !run_calls_overall. by setoid_rewrite Hmem. }
  assert (_packages_with_problems (run_calls calls) =
          _packages_with_problems (run_calls calls')) as Hwp.
  { apply set_eq. intros n. rewrite !run_calls_with_problems.
    by setoid_rewrite Hmem. }
  assert (dom (_packagedeps (run_calls calls)) =
          dom (_packagedeps (run_calls calls'))) as Hdom.
  { apply set_eq. intros n.
    pose proof (run_calls_packages calls n) as H1.
    pose proof (run_calls_packages calls' n) as H2.
    unfold packages_of in H1, H2. rewrite elem_of_elements in H1, H2.
    rewrite H1, H2. by setoid_rewrite Hmem. }
  split; [done|]. split; [done|]. split; [done|]. split; [|split].
  - intros x. unfold overall_problems. by rewrite !elem_of_elements, Hov.
  - intros n. unfold packages_with_problems. by rewrite !elem_of_elements, Hwp.
  - intros n. unfold packages_of. by rewrite !elem_of_elements, Hdom.
Qed.

(** X7: asking for the dependencies of a NEVRA that no call added makes
    it one of [packages] although it has no repository:
    [repository_for_package] still fails for it.  The summaries stay as
    they were and stay consistent with the per-package problem lists. *)
Theorem lookup_adds_package_without_repository calls n :
  (∀ c, c ∈ calls → package_str (call_pkg c) ≠ n) →
  let ds := run_calls calls in
  let ds' := (dependencies_for_package ds n).2 in
  (n ∉ packages_of ds) ∧
  (dependencies_for_package ds n).1 = [] ∧
  n ∈ packages_of ds' ∧
  repository_for_package ds' n = None ∧
  overall_problems ds' = overall_problems ds ∧
  packages_with_problems ds' = packages_with_problems ds ∧
  problems_consistent ds'.
Proof.
  intros Hnone ds ds'.
  assert (calls_for n calls = []) as Hnil.
  { apply calls_for_nil_iff. intros (c & Hc & Hn). by apply (Hnone c). }
  assert (_packagedeps ds !! n = None) as Hlookup.
  { unfold ds. rewrite run_calls_packagedeps. by rewrite bool_decide_true. }
  split; [|split; [|split; [|split; [|split; [done|split; [done|]]]]]].
  - unfold packages_of. rewrite elem_of_elements, not_elem_of_dom. done.
  - unfold dependencies_for_package, defaultdict_get. cbn [fst]. by rewrite Hlookup.
  - unfold ds', packages_of, dependencies_for_package, defaultdict_touch. cbn [snd].
    simpl. rewrite elem_of_elements, elem_of_dom, lookup_insert_eq. eauto.
  - pose proof (run_calls_package_repo calls n) as Hr.
    rewrite Hnil in Hr. exact Hr.
  - destruct (problems_consistent_run calls) as [Hov Hwp]. fold ds in Hov, Hwp.
    unfold ds', dependencies_for_package, defaultdict_touch, defaultdict_get.
    cbn [snd]. rewrite Hlookup. split; simpl.
    + intros x. rewrite Hov. split.
      * intros (m & e & Hl & Hx). exists m, e. split; [|done].
        rewrite lookup_insert_ne; [done|]. intros <-. congruence.
      * intros (m & e & Hl & Hx). rewrite lookup_insert in Hl.
        destruct (decide (n = m)) as [<-|Hne].
        -- injection Hl as <-. by apply not_elem_of_nil in Hx.
        -- by exists m, e.
    + intros m. rewrite Hwp. split.
      * intros (e & Hl & Hx). exists e. split; [|done].
        rewrite lookup_insert_ne; [done|]. intros <-. congruence.
      * intros (e & Hl & Hx). rewrite lookup_insert in Hl.
        destruct (decide (n = m)) as [<-|Hne].
        -- by injection Hl as <-.
        -- by exists e.
Qed.

End AggregatorSummaries.

Lemma summaries_ignore_order_witness :
  _overall_problems
    (run_calls [mkAddCall Demo.bar "@commandline" [] ["a"];
                mkAddCall Demo.tool "base" [] ["b"]]) =
  _overall_problems
    (run_calls [mkAddCall Demo.tool "base" [] ["b"];
                mkAddCall Demo.bar "@commandline" [] ["a"]]).
Proof.
  refine (proj1 (summaries_ignore_order _ _ _)). apply Permutation_swap.
Defined.

Lemma lookup_adds_package_without_repository_witness :
  repository_for_package
    (dependencies_for_package
       (run_calls [mkAddCall Demo.bar "@commandline" [Demo.libfoo1] []])
       "tool-1.0-1.x86_64").2 "tool-1.0-1.x86_64" = None.
Proof.
  refine (proj1 (proj2 (proj2 (proj2 (lookup_adds_package_without_repository
            [mkAddCall Demo.bar "@commandline" [Demo.libfoo1] []]
            "tool-1.0-1.x86_64" _))))).
  intros c Hc. apply list_elem_of_singleton in Hc as ->. vm_compute. discriminate.
Defined.

(** ** The other queries of the analyzer *)

Section QueryFacts.
Context (E : External) (sack : list Package).

Definition filter_name (n : string) (q : list Package) : list Package :=
filter (λ p, name p = n) q.

Definition filter_nevra (nevra : string) (q : list Package) : list Package :=
filter (λ p, package_str p = nevra) q.

(** [find_packages_named] *)
Definition find_packages_named (n : string) : list Package :=
filter_latest_per_arch E (filter_name n sack).

(** [find_package_with_nevra]; [None] is the [None] of the source. *)
Definition find_package_with_nevra (nevra : string) : option Package :=
let result := filter_nevra nevra sack in
if bool_decide (length result = 0) then None
else filter_nevra nevra sack !! 0.

(** [find_packages_for_repos] *)
Definition find_packages_for_repos (repos : list string) : list Package :=
let pkgs := list_latest_packages E sack in
let s : gset string := list_to_set repos in
filter (λ x, reponame x ∈ s) pkgs.

(** The test that [latest_per_arch] makes of a package against a query. *)
Definition unsurpassed (q : list Package) (p : Package) : Prop :=
Forall (λ p', ¬ (name p' = name p ∧ arch p' = arch p ∧
                 evr_gt E (evr p') (evr p) = true)) q.

Lemma latest_elem (q : list Package) (p : Package) :
  p ∈ filter_latest_per_arch E q ↔ unsurpassed q p ∧ p ∈ q.
Proof. unfold filter_latest_per_arch. apply list_elem_of_filter. Qed.

Lemma unsurpassed_filter (P : Package → Prop) `{!∀ x, Decision (P x)}
    (q : list Package) (p : Package) :
  unsurpassed q p → unsurpassed (filter P q) p.
Proof.
  unfold unsurpassed. rewrite !Forall_forall. intros Hall x Hx.
  apply Hall. by apply list_elem_of_filter in Hx as [_ ?].
Qed.

Lemma filter_iff_on {A} (P1 P2 : A → Prop)
    `{!∀ x, Decision (P1 x), !∀ x, Decision (P2 x)} (l : list A) :
  (∀ x, x ∈ l → P1 x ↔ P2 x) → filter P1 l = filter P2 l.
Proof.
  induction l as [|a l IH]; intros Hiff; [done|].
  rewrite !filter_cons. rewrite IH by (intros x Hx; apply Hiff; by right).
  destruct (decide (P1 a)) as [H1|H1], (decide (P2 a)) as [H2|H2]; try done.
  - exfalso. apply H2, Hiff; [left|done].
  - exfalso. apply H1, Hiff; [left|done].
Qed.

Lemma filter_all {A} (P : A → Prop) `{!∀ x, Decision (P x)} (l : list A) :
  (∀ x, x ∈ l → P x) → filter P l = l.
Proof.
  induction l as [|a l IH]; intros Hall; [done|].
  rewrite filter_cons_True by (apply Hall; left).
  f_equal. apply IH. intros x Hx. apply Hall. by right.
Qed.

Lemma latest_narrowed (P : Package → Prop) `{!∀ x, Decision (P x)}
    (q : list Package) (p : Package) :
  p ∈ filter_latest_per_arch E q → P p →
  p ∈ filter_latest_per_arch E (filter P q).
Proof.
  intros [Hp Hin]%latest_elem HP. apply latest_elem. split.
  - by apply unsurpassed_filter.
  - by apply list_elem_of_filter.
Qed.

(** X9: a latest package of a query that passes a further test is a
    latest package of the query narrowed by that test.  So a repository
    package that is latest in the whole sack is latest among the
    repository packages, and a latest package of the sack that owns a
    file is a candidate of [find_conflicts] for that file. *)
Theorem latest_survives_narrowing :
  (∀ p, p ∈ filter_latest_per_arch E sack → reponame p ≠ "@commandline" →
        p ∈ available_from_repos E sack) ∧
  (∀ p filename, p ∈ list_latest_packages E sack → filename ∈ files p →
        p ∈ conflict_candidates E sack filename).
Proof.
  split.
  - intros p Hp Hrepo. unfold available_from_repos, filter_reponame_neq.
    by apply latest_narrowed.
  - intros p filename Hp Hf. unfold conflict_candidates, filter_file.
    by apply latest_narrowed.
Qed.

(** X10: for [find_packages_named] it makes no difference whether the
    name or [latest_per_arch] is evaluated first: its packages are the
    latest packages of the sack that have the name. *)
Theorem find_packages_named_latest (n : string) :
  find_packages_named n = filter_name n (list_latest_packages E sack).
Proof.
  unfold find_packages_named, list_latest_packages, filter_name,
    filter_latest_per_arch.
  rewrite !list_filter_filter. apply filter_iff_on. intros p Hp.
  split.
  - intros [Hf Hn]. split; [done|].
    rewrite Forall_forall in Hf |- *. intros x Hx.
    destruct (decide (name x = n)) as [Hxn|Hxn].
    + apply Hf. by apply list_elem_of_filter.
    + intros (Hname & _). congruence.
  - intros [Hn Hf]. split; [|done].
    rewrite Forall_forall in Hf |- *. intros x Hx.
    apply list_elem_of_filter in Hx as [_ Hx]. by apply Hf.
Qed.

(** X11: [find_packages_for_repos] answers with the latest packages of
    the sack whose repository is one of those given, none for no
    repository; when the command line is not among the repositories,
    each of them is latest among the repository packages. *)
Theorem find_packages_for_repos_spec (repos : list string) :
  (∀ p, p ∈ find_packages_for_repos repos ↔
        p ∈ list_latest_packages E sack ∧ reponame p ∈ repos) ∧
  find_packages_for_repos [] = [] ∧
  ("@commandline" ∉ repos →
     ∀ p, p ∈ find_packages_for_repos repos → p ∈ available_from_repos E sack).
Proof.
  assert (∀ rs p, p ∈ find_packages_for_repos rs ↔
                  p ∈ list_latest_packages E sack ∧ reponame p ∈ rs) as Hspec.
  { intros rs p. unfold find_packages_for_repos.
    rewrite list_elem_of_filter, elem_of_list_to_set. tauto. }
  split; [apply Hspec|]. split.
  - destruct (find_packages_for_repos []) as [|p l] eqn:Hf; [done|].
    assert (p ∈ find_packages_for_repos []) as Hin by (rewrite Hf; left).
    apply Hspec in Hin as [_ Hin]. by apply not_elem_of_nil in Hin.
  - intros Hcmd p [Hp Hr]%Hspec.
    unfold available_from_repos, filter_reponame_neq.
    apply latest_narrowed; [done|]. by intros Heq; rewrite Heq in Hr.
Qed.

(** X12: [find_package_with_nevra] answers [None] exactly when no package
    of the sack has the NEVRA; otherwise it answers with a package of the
    sack that has it, so every package of the sack is found again, up to
    its NEVRA, by the NEVRA it prints. *)
Theorem find_package_with_nevra_spec (nevra : string) :
  (find_package_with_nevra nevra = None ↔
     ∀ p, p ∈ sack → package_str p ≠ nevra) ∧
  (∀ p, find_package_with_nevra nevra = Some p →
        p ∈ sack ∧ package_str p = nevra) ∧
  (∀ p, p ∈ sack → ∃ p', find_package_with_nevra (package_str p) = Some p' ∧
                         package_str p' = package_str p).
Proof.
  assert (∀ nv p, find_package_with_nevra nv = Some p →
                  p ∈ sack ∧ package_str p = nv) as Hsome.
  { intros nv p. unfold find_package_with_nevra, filter_nevra.
    case_bool_decide; [done|]. intros Hl.
    apply list_elem_of_lookup_2, list_elem_of_filter in Hl. tauto. }
  assert (∀ nv, find_package_with_nevra nv = None ↔
                ∀ p, p ∈ sack → package_str p ≠ nv) as Hnone.
  { intros nv. unfold find_package_with_nevra, filter_nevra. split.
    - intros Hf p Hp Hn.
      assert (p ∈ filter (λ p, package_str p = nv) sack) as Hin
        by (by apply list_elem_of_filter).
      destruct (filter (λ p, package_str p = nv) sack) as [|x l];
        [by apply not_elem_of_nil in Hin|done].
    - intros Hall. destruct (filter (λ p, package_str p = nv) sack) as [|x l] eqn:Hf;
        [done|]. exfalso.
      assert (x ∈ filter (λ p, package_str p = nv) sack) as Hin by (rewrite Hf; left).
      apply list_elem_of_filter in Hin as [? ?]. by apply (Hall x). }
  split; [apply Hnone|]. split; [apply Hsome|].
  intros p Hp. destruct (find_package_with_nevra (package_str p)) as [p'|] eqn:Hf.
  - exists p'. split; [done|]. by apply Hsome in Hf as [_ ?].
  - exfalso. by apply (proj1 (Hnone _) Hf p).
Qed.

End QueryFacts.

Lemma find_packages_for_repos_spec_witness :
  Demo.tool ∈ available_from_repos Demo.env Demo.sack.
Proof.
  apply (proj2 (proj2 (find_packages_for_repos_spec Demo.env Demo.sack ["base"]))).
  - apply (bool_decide_eq_true_1 _). vm_compute. reflexivity.
  - apply (bool_decide_eq_true_1 _). vm_compute. reflexivity.
Defined.

(** ** The aggregator that [try_to_install_all] returns *)

Section InstallAllFacts.
Context (E : External).

(** The call of [add_package] that [try_to_install_all] makes for a
    package under test. *)
Definition install_call (pkg : Package) : AddCall :=
mkAddCall pkg (reponame pkg) (installs (try_to_install E [pkg]).2)
          (res_problems (try_to_install E [pkg]).2).

Lemma install_fold_as_calls (l : list Package) (ds : DependencySet) :
  foldl (install_step E) ds l = foldl apply_call ds (install_call <$> l).
Proof.
  revert ds. induction l as [|p l IH]; intros ds; [done|].
  simpl. rewrite <-IH. f_equal. unfold install_step, apply_call, install_call.
  simpl. by destruct (try_to_install E [p]).
Qed.

Lemma try_to_install_all_as_calls (packages : list Package) :
  (try_to_install_all E packages).2 = run_calls (install_call <$> packages).
Proof. unfold try_to_install_all, run_calls. cbn [snd]. apply install_fold_as_calls. Qed.

Lemma install_call_problems (pkg : Package) :
  call_problems (install_call pkg) =
  if run_ok (goal_run E [pkg]) then [] else goal_problems (goal_run E [pkg]).
Proof.
  unfold install_call, try_to_install. simpl.
  by destruct (run_ok (goal_run E [pkg])).
Qed.

Lemma install_call_deps (pkg : Package) :
  call_deps (install_call pkg) =
  if run_ok (goal_run E [pkg]) then list_installs (goal_run E [pkg]) else [].
Proof.
  unfold install_call, try_to_install. simpl.
  by destruct (run_ok (goal_run E [pkg])).
Qed.

Lemma elem_of_install_calls (packages : list Package) (c : AddCall) :
  c ∈ install_call <$> packages ↔ ∃ pkg, pkg ∈ packages ∧ c = install_call pkg.
Proof.
  rewrite list_elem_of_fmap. split; intros (pkg & ? & ?); exists pkg; done.
Qed.

End InstallAllFacts.

Section InstallAllResults.
Context (E : External) (packages : list Package).

Lemma calls_for_install_calls (n : string) (l : list Package) :
  calls_for n (install_call E <$> l) =
  install_call E <$> filter (λ p, package_str p = n) l.
Proof.
  unfold calls_for. induction l as [|p l IH]; [done|].
  rewrite fmap_cons, !filter_cons, IH. simpl.
  by destruct (decide (package_str p = n)).
Qed.

(** X13: the aggregator of [try_to_install_all] tracks exactly the
    NEVRAs of the packages under test; for each it answers with a
    repository, the repository of the last package under test with that
    NEVRA. *)
Theorem install_all_tracks_packages (n : string) :
  let ds := (try_to_install_all E packages).2 in
  (n ∈ packages_of ds ↔ ∃ pkg, pkg ∈ packages ∧ package_str pkg = n) ∧
  repository_for_package ds n =
    reponame <$> last (filter (λ p, package_str p = n) packages).
Proof.
  intros ds. unfold ds. rewrite try_to_install_all_as_calls. split.
  - rewrite run_calls_packages. split.
    + intros (c & [pkg [Hp ->]]%elem_of_install_calls & Hn). by exists pkg.
    + intros (pkg & Hp & Hn). exists (install_call E pkg). split; [|done].
      apply elem_of_install_calls. by exists pkg.
  - rewrite run_calls_package_repo, calls_for_install_calls, fmap_last.
    by destruct (last _).
Qed.

(** X14: the overall problems of [try_to_install_all] are exactly the
    problems of the goals that failed, each goal installing one package
    under test; the packages with problems are exactly those whose goal
    failed with at least one problem. *)
Theorem install_all_problems :
  let ds := (try_to_install_all E packages).2 in
  (∀ x, x ∈ overall_problems ds ↔
        ∃ pkg, pkg ∈ packages ∧ run_ok (goal_run E [pkg]) = false ∧
               x ∈ goal_problems (goal_run E [pkg])) ∧
  (∀ n, n ∈ packages_with_problems ds ↔
        ∃ pkg, pkg ∈ packages ∧ package_str pkg = n ∧
               run_ok (goal_run E [pkg]) = false ∧
               goal_problems (goal_run E [pkg]) ≠ []).
Proof.
  intros ds. unfold ds. rewrite try_to_install_all_as_calls. split.
  - intros x. unfold overall_problems. rewrite elem_of_elements, run_calls_overall.
    split.
    + intros (c & [pkg [Hp ->]]%elem_of_install_calls & Hx).
      rewrite install_call_problems in Hx. exists pkg.
      destruct (run_ok (goal_run E [pkg])); [by apply not_elem_of_nil in Hx|done].
    + intros (pkg & Hp & Hok & Hx). exists (install_call E pkg). split.
      * apply elem_of_install_calls. by exists pkg.
      * by rewrite install_call_problems, Hok.
  - intros n. unfold packages_with_problems.
    rewrite elem_of_elements, run_calls_with_problems. split.
    + intros (c & [pkg [Hp ->]]%elem_of_install_calls & Hn & Hne).
      rewrite install_call_problems in Hne. exists pkg.
      destruct (run_ok (goal_run E [pkg])); done.
    + intros (pkg & Hp & Hn & Hok & Hne). exists (install_call E pkg). split.
      * apply elem_of_install_calls. by exists pkg.
      * split; [done|]. by rewrite install_call_problems, Hok.
Qed.

(** X16: in the aggregator of [try_to_install_all], a repository depends
    on another exactly when a package under test of the first has a
    solved goal that installs a package of the second. *)
Theorem install_all_repository_edges (r r' : string) :
  r' ∈ (dependencies_for_repository (try_to_install_all E packages).2 r).1 ↔
  ∃ pkg d, pkg ∈ packages ∧ reponame pkg = r ∧
           run_ok (goal_run E [pkg]) = true ∧
           d ∈ list_installs (goal_run E [pkg]) ∧ reponame d = r'.
Proof.
  rewrite try_to_install_all_as_calls.
  unfold dependencies_for_repository. cbn [fst].
  rewrite elem_of_elements, run_calls_repodeps. split.
  - intros (c & d & [pkg [Hp ->]]%elem_of_install_calls & Hr & Hd & Hrd).
    rewrite install_call_deps in Hd. exists pkg, d.
    destruct (run_ok (goal_run E [pkg])); [done|by apply not_elem_of_nil in Hd].
  - intros (pkg & d & Hp & Hr & Hok & Hd & Hrd). exists (install_call E pkg), d.
    split; [apply elem_of_install_calls; by exists pkg|].
    split; [done|]. split; [|done]. by rewrite install_call_deps, Hok.
Qed.

End InstallAllResults.

Section InstallAllOrder.
Context (E : External).

(** X15: the order of the packages under test does not show in the
    outcome of [try_to_install_all]: the same packages in another order
    give the same flag, the same set of overall problems and the same set
    of packages with problems, so the lists that [overall_problems] and
    [packages_with_problems] answer with hold the same elements. *)
Theorem install_all_ignores_order (packages packages' : list Package) :
  packages ≡ₚ packages' →
  (try_to_install_all E packages).1 = (try_to_install_all E packages').1 ∧
  _overall_problems (try_to_install_all E packages).2 =
    _overall_problems (try_to_install_all E packages').2 ∧
  _packages_with_problems (try_to_install_all E packages).2 =
    _packages_with_problems (try_to_install_all E packages').2 ∧
  (∀ x, x ∈ overall_problems (try_to_install_all E packages).2 ↔
        x ∈ overall_problems (try_to_install_all E packages').2) ∧
  (∀ n, n ∈ packages_with_problems (try_to_install_all E packages).2 ↔
        n ∈ packages_with_problems (try_to_install_all E packages').2).
Proof.
  intros Hperm.
  assert (∀ c, c ∈ install_call E <$> packages ↔ c ∈ install_call E <$> packages')
    as Hmem by (intros c; by rewrite Hperm).
  assert (_overall_problems (try_to_install_all E packages).2 =
          _overall_problems (try_to_install_all E packages').2) as Hov.
  { rewrite !try_to_install_all_as_calls. apply set_eq. intros x.
    rewrite !run_calls_overall. by setoid_rewrite Hmem. }
  assert (_packages_with_problems (try_to_install_all E packages).2 =
          _packages_with_problems (try_to_install_all E packages').2) as Hwp.
  { rewrite !try_to_install_all_as_calls. apply set_eq. intros n.
    rewrite !run_calls_with_problems. by setoid_rewrite Hmem. }
  split; [|split; [done|split; [done|split]]].
  - clear Hwp. unfold try_to_install_all in *. cbn [fst snd] in *.
    unfold overall_problems. by rewrite Hov.
  - intros x. unfold overall_problems. by rewrite !elem_of_elements, Hov.
  - intros n. unfold packages_with_problems. by rewrite !elem_of_elements, Hwp.
Qed.

End InstallAllOrder.

Lemma install_all_ignores_order_witness :
  (try_to_install_all Demo.env [Demo.bar; Demo.tool]).1 =
  (try_to_install_all Demo.env [Demo.tool; Demo.bar]).1.
Proof.
  refine (proj1 (install_all_ignores_order Demo.env _ _ _)). apply Permutation_swap.
Defined.

(** ** What the analyses report, and what they never report *)

Section ClosureReports.
Context (E : External) (sack packages : list Package).

Lemma bind_nil_all {A B} (f : A → list B) (l : list A) :
  (∀ x, x ∈ l → f x = []) → l ≫= f = [].
Proof.
  induction l as [|a l IH]; intros Hall; [done|].
  cbn [mbind list_bind]. change (foldr _ _ _) with (f a ++ (l ≫= f)).
  rewrite Hall by left. rewrite IH; [done|]. intros x Hx. apply Hall. by right.
Qed.

Lemma repoclosure_reported_sets (x : string) :
  x ∈ find_repoclosure_problems E sack packages ↔
  ∃ p r,
    p ∈ available E sack ∧ (p ∉ packages) ∧ (p ∉ obsoleted E sack) ∧
    r ∈ requires p ∧ String.prefix "rpmlib(" r = false ∧
    (∀ q, q ∈ available E sack → q ∉ obsoleted E sack →
          sack_provides E q r = false) ∧
    (∃ q, q ∈ available_from_repos E sack ∧ (q ∉ obsoleted_from_repos E sack) ∧
          sack_provides E q r = true) ∧
    x = closure_problem_msg r p.
Proof.
  unfold find_repoclosure_problems. rewrite find_repoclosure_run_rounds. cbn [fst].
  rewrite list_elem_of_bind. split.
  - intros (p & Hin & Hp). apply list_elem_of_filter in Hp as [Hc Hp].
    apply package_checked_true in Hc as [Htest Hobs].
    apply list_elem_of_bind in Hin as (r & Hin & Hr).
    unfold requirement_problems in Hin.
    destruct (String.prefix "rpmlib(" r) eqn:Hpre; [by apply not_elem_of_nil in Hin|].
    case_bool_decide as Hprov; [|by apply not_elem_of_nil in Hin].
    case_bool_decide as Hrepo; [by apply not_elem_of_nil in Hin|].
    apply list_elem_of_singleton in Hin. exists p, r.
    repeat (split; [done|]). split; [by apply providers_nil|].
    split; [by apply repo_providers_not_nil|done].
  - intros (p & r & Hp & Htest & Hobs & Hr & Hpre & Ha & Hb & ->).
    exists p. split.
    + apply list_elem_of_bind. exists r. split; [|done].
      unfold requirement_problems. rewrite Hpre.
      rewrite bool_decide_true by (by apply providers_nil).
      rewrite bool_decide_false by (by apply repo_providers_not_nil).
      by apply list_elem_of_singleton.
    + apply list_elem_of_filter. split; [|done]. by apply package_checked_true.
Qed.

(** X17: every string that [find_repoclosure_problems] returns is the
    problem string of a package of [available] that is not under test
    and that no package of [available] obsoletes, and of a requirement of
    it outside [rpmlib(] that is provided by no package of [available]
    left unobsoleted there, and by some package of
    [available_from_repos] left unobsoleted there; and each such pair has
    its string returned.  So nothing is reported for a package under
    test, for a package that a package of [available] obsoletes, or for
    an [rpmlib(] requirement. *)
Theorem repoclosure_reported_strings (x : string) :
  x ∈ find_repoclosure_problems E sack packages ↔
  ∃ p r,
    p ∈ available E sack ∧ (p ∉ packages) ∧
    ¬ obsoleted_within E (available E sack) p ∧
    r ∈ requires p ∧ String.prefix "rpmlib(" r = false ∧
    (∀ q, q ∈ available E sack → ¬ obsoleted_within E (available E sack) q →
          sack_provides E q r = false) ∧
    (∃ q, q ∈ available_from_repos E sack ∧
          ¬ obsoleted_within E (available_from_repos E sack) q ∧
          sack_provides E q r = true) ∧
    x = closure_problem_msg r p.
Proof.
  rewrite repoclosure_reported_sets. split.
  - intros (p & r & Hp & Htest & Hobs & Hr & Hpre & Ha & Hb & ->).
    exists p, r. split; [done|]. split; [done|].
    split; [by apply (collect_obsoleted_within E (available E sack) p Hp)|].
    split; [done|]. split; [done|].
    split; [by apply providers_nil_within, providers_nil|].
    split; [by apply repo_providers_within, repo_providers_not_nil|done].
  - intros (p & r & Hp & Htest & Hobs & Hr & Hpre & Ha & Hb & ->).
    exists p, r. split; [done|]. split; [done|].
    split; [by apply (collect_obsoleted_within E (available E sack) p Hp)|].
    split; [done|]. split; [done|].
    split; [by apply providers_nil, providers_nil_within|].
    split; [by apply repo_providers_not_nil, repo_providers_within|done].
Qed.

(** X18: when no package of the sack comes from the command line,
    [find_repoclosure_problems] returns nothing, whatever the packages
    under test are: every unsatisfied requirement is then a problem the
    repositories had before. *)
Theorem repoclosure_silent_without_commandline :
  Forall (λ p, reponame p ≠ "@commandline") sack →
  find_repoclosure_problems E sack packages = [].
Proof.
  intros Hrepo. rewrite Forall_forall in Hrepo.
  assert (available_from_repos E sack = available E sack) as Hav.
  { unfold available_from_repos, available, filter_reponame_neq.
    by rewrite filter_all. }
  assert (∀ r, repo_providers E sack r = providers E sack r) as Hprov.
  { intros r. unfold repo_providers, providers, obsoleted_from_repos, obsoleted.
    by rewrite Hav. }
  unfold find_repoclosure_problems. rewrite find_repoclosure_run_rounds. cbn [fst].
  apply bind_nil_all. intros p _. apply bind_nil_all. intros r _.
  unfold requirement_problems. rewrite Hprov.
  destruct (String.prefix "rpmlib(" r); [done|].
  by case_bool_decide.
Qed.

(** X19: [obsoleted] holds exactly the packages of [available] that some
    package of [available] obsoletes, and [obsoleted_from_repos] those of
    [available_from_repos] that some package of [available_from_repos]
    obsoletes. *)
Theorem obsoleted_sets_spec (p : Package) :
  (p ∈ obsoleted E sack ↔
     p ∈ available E sack ∧
     ∃ o, o ∈ available E sack ∧ sack_obsoletes E o p = true) ∧
  (p ∈ obsoleted_from_repos E sack ↔
     p ∈ available_from_repos E sack ∧
     ∃ o, o ∈ available_from_repos E sack ∧ sack_obsoletes E o p = true).
Proof. split; apply collect_obsoleted_elem. Qed.

End ClosureReports.

Lemma repoclosure_silent_without_commandline_witness :
  find_repoclosure_problems Demo.env [Demo.libfoo1; Demo.libfoo2; Demo.tool]
                            [Demo.bar] = [].
Proof.
  apply repoclosure_silent_without_commandline.
  apply (bool_decide_eq_true_1 _). vm_compute. reflexivity.
Defined.

Section ConflictReports.
Context (E : External) (sack packages : list Package).






End ConflictReports.


Section UpgradeReports.
Context (E : External) (sack packages : list Package).

(** X22: every string that [find_upgrade_problems] returns is the upgrade
    string of a package under test and a package of the sack with its
    name and architecture and a greater epoch-version-release, or the
    obsoletion string of a package under test and a package of the sack
    that obsoletes it; and each such pair has its string returned. *)
Theorem upgrade_reported_strings (x : string) :
  x ∈ find_upgrade_problems E sack packages ↔
  ∃ package other,
    package ∈ packages ∧ other ∈ sack ∧
    ((name other = name package ∧ arch other = arch package ∧
      evr_gt E (evr other) (evr package) = true ∧
      x = upgrade_msg package other) ∨
     (sack_obsoletes E other package = true ∧
      x = obsolete_msg package other)).
Proof.
  unfold find_upgrade_problems. rewrite upgrade_fold_appends. simpl.
  rewrite list_elem_of_bind. split.
  - intros (package & Hin & Hp). apply elem_of_app in Hin as [Hin|Hin].
    + apply list_elem_of_fmap in Hin as (other & -> & Hin).
      apply list_elem_of_filter in Hin as [(? & ? & ?) ?].
      exists package, other. split; [done|]. split; [done|]. by left.
    + apply list_elem_of_fmap in Hin as (other & -> & Hin).
      apply list_elem_of_filter in Hin as [? ?].
      exists package, other. split; [done|]. split; [done|]. by right.
  - intros (package & other & Hp & Ho & [(Hn & Ha & He & ->)|(Hobs & ->)]);
      exists package; (split; [|done]); apply elem_of_app.
    + left. apply list_elem_of_fmap_2. by apply list_elem_of_filter.
    + right. apply list_elem_of_fmap_2. by apply list_elem_of_filter.
Qed.

End UpgradeReports.

Lemma latest_survives_narrowing_witness :
  Demo.tool ∈ available_from_repos Demo.env Demo.sack ∧
  Demo.tool ∈ conflict_candidates Demo.env Demo.sack "/usr/bin/tool".
Proof.
  split.
  - apply (proj1 (latest_survives_narrowing Demo.env Demo.sack) Demo.tool).
    + apply (bool_decide_eq_true_1 _). vm_compute. reflexivity.
    + vm_compute. discriminate.
  - apply (proj2 (latest_survives_narrowing Demo.env Demo.sack) Demo.tool).
    + apply (bool_decide_eq_true_1 _). vm_compute. reflexivity.
    + left.
Defined.
